(** * DB::dynamic_bitset: a bit-packed resizable container

    Shallow embedding of [DynamicBitset.h].  The header is modelled as it is
    written, for a build in which the [_CONTAINER_DEBUG_LEVEL] and
    [_ITERATOR_DEBUG_LEVEL] assertions are compiled out:

    - [unsigned char] values ([bit_index], the data of a [byte]) are integers
      of [Z] and every conversion back to [unsigned char] is written out as a
      reduction modulo 256;
    - [size_t] values ([byte_index], vector sizes) are natural numbers: a
      [std::vector] never holds [2^64] cells, so no wrap-around is reachable;
    - [std::vector<byte>] is a list and [operator[]] is a partial lookup:
      [None] stands for the undefined behaviour of an index out of bounds;
    - an [iterator& it] parameter is passed in and handed back;
      [it.mSource->...] is a read of the one container the cursor was built
      from, which the extraction routines thread through a small state and
      error monad. *)

From Stdlib Require Import ZArith Lia ZifyNat.
From stdpp Require Import base option list.

Local Open Scope Z_scope.

(** ** Basic types *)

(** [using byte_index = size_t; using bit_index = unsigned char;
    using bit = bool;] *)
Abbreviation byte_index := nat (only parsing).
Abbreviation bit_index := Z (only parsing).
Abbreviation bit := bool (only parsing).

Definition sNumOfBitsInByte : bit_index := 8.

(** Conversion of an [int] result to [unsigned char]. *)
Definition to_uchar (z : Z) : Z := z mod 256.

(** ** class byte

    [set] and [get] are called with [index < sNumOfBitsInByte]; for a larger
    index the shift amount wraps to a value at which the C++ shift is
    undefined, and nothing below is stated about that case. *)

Module byte.

Record t : Type := mk { mData : Z }.

(** [byte{}]: value initialisation. *)
Definition zero : t := mk 0.

(** [unsigned char shiftAmount = sNumOfBitsInByte - index - 1;] *)
Definition shiftAmount (index : bit_index) : Z :=
  to_uchar (sNumOfBitsInByte - index - 1).

(** [mData = (mData & ~(1 << shiftAmount)) + (bit << shiftAmount);] *)
Definition set (b : t) (index : bit_index) (v : bit) : t :=
  let s := shiftAmount index in
  mk (to_uchar (Z.land (mData b) (Z.lnot (Z.shiftl 1 s)) + Z.shiftl (Z.b2z v) s)).

(** [return (mData & (1 << shiftAmount)) >> shiftAmount;] converted to
    [bool]: any value other than zero is [true]. *)
Definition get (b : t) (index : bit_index) : bit :=
  let s := shiftAmount index in
  negb (Z.shiftr (Z.land (mData b) (Z.shiftl 1 s)) s =? 0).

(** The values an [unsigned char] can hold. *)
Definition in_range (b : t) : Prop := 0 <= mData b < 256.

End byte.

(** ** class bit_ref

    A [bit_ref] holds a C++ reference to the [byte] it was taken from.  Inside
    a container that byte is either a cell of the vector [mData] or the byte of
    [mIncompleteByte]; the reference is modelled as the place it designates. *)

Module bit_ref.

Inductive owner : Type :=
| in_mData (byteIndex : byte_index)
| in_mIncompleteByte.

Record t : Type := mk { mOwner : owner; mIndexAtOwner : bit_index }.

End bit_ref.

(** ** struct dynamic_bitset::IncompleteByte *)

Module IncompleteByte.

Record t : Type := mk { mByte : byte.t; mNumOfBits : bit_index }.

(** [return mNumOfBits == sNumOfBitsInByte;] *)
Definition isFull (ib : t) : bool := mNumOfBits ib =? sNumOfBitsInByte.

End IncompleteByte.

(** ** class dynamic_bitset::IteratorBase and its two cursors

    [iterator] and [const_iterator] share the position and its operators; the
    pointer [mSource] is the container handed to the functions below. *)

Module iterator.

Record t : Type := mk { mByteIndex : byte_index; mBitIndex : bit_index }.

(** Prefix [operator++]:
    [if (++mBitIndex == 8) { mBitIndex = 0; ++mByteIndex; }] *)
Definition incr (it : t) : t :=
  let bitIndex := to_uchar (mBitIndex it + 1) in
  if bitIndex =? 8 then mk (S (mByteIndex it)) 0
  else mk (mByteIndex it) bitIndex.

(** [operator==] *)
Definition eqb (a b : t) : bool :=
  Nat.eqb (mByteIndex a) (mByteIndex b) && (mBitIndex a =? mBitIndex b).

(** [operator!=] *)
Definition neqb (a b : t) : bool :=
  negb (Nat.eqb (mByteIndex a) (mByteIndex b))
  || negb (mBitIndex a =? mBitIndex b).

(** [operator<] *)
Definition ltb (a b : t) : bool :=
  Nat.ltb (mByteIndex a) (mByteIndex b)
  || (Nat.eqb (mByteIndex a) (mByteIndex b) && (mBitIndex a <? mBitIndex b)).

End iterator.

(** The counted loop [for (bit_index i = 0; i < sNumOfBitsInByte; i++)] runs
    its body at these indices, in this order. *)
Definition bit_indices : list bit_index := Z.of_nat <$> seq 0 8.

(** ** class dynamic_bitset *)

Module dynamic_bitset.

Import IncompleteByte.

Record t : Type := mk {
  mData : list byte.t;
  mIncompleteByte : IncompleteByte.t;
  mBitIndex : bit_index
}.

(** A default-constructed container. *)
Definition empty : t :=
  mk [] (IncompleteByte.mk byte.zero 0) (to_uchar (sNumOfBitsInByte - 1)).

(** [return mIncompleteByte.mNumOfBits > 0;] *)
Definition isThereAnIncompleteByte (c : t) : bool :=
  0 <? mNumOfBits (mIncompleteByte c).

(** [begin]: [IteratorType{ fromBitset, 0, 0 }] *)
Definition begin_ (c : t) : iterator.t := iterator.mk 0 0.

(** [end]: the byte index is [mData.size()], the bit index is [mNumOfBits]
    when there is an incomplete byte and 0 otherwise. *)
Definition end_ (c : t) : iterator.t :=
  let byteIndex := length (mData c) in
  let bitIndex :=
    if isThereAnIncompleteByte c then mNumOfBits (mIncompleteByte c) else 0 in
  iterator.mk byteIndex bitIndex.

(** The condition of the debug assertion of [get] and [getBitRef]. *)
Definition position_asserted (c : t) (byteIndex : byte_index)
    (bitIndex : bit_index) : bool :=
  Nat.ltb byteIndex (length (mData c))
  || (Nat.eqb byteIndex (length (mData c))
      && (bitIndex <? mNumOfBits (mIncompleteByte c))).

(** [byteIndex < mData.size() ? mData[byteIndex] : mIncompleteByte.mByte] *)
Definition select_byte (c : t) (byteIndex : byte_index) : option byte.t :=
  if Nat.ltb byteIndex (length (mData c)) then mData c !! byteIndex
  else Some (mByte (mIncompleteByte c)).

(** [get(byte_index, bit_index)] *)
Definition get (c : t) (byteIndex : byte_index) (bitIndex : bit_index)
    : option bit :=
  b ← select_byte c byteIndex; Some (byte.get b bitIndex).

(** [get(iterator&)]: reads the bit under the cursor, then advances it. *)
Definition get_it (c : t) (it : iterator.t) : option (bit * iterator.t) :=
  returnBit ← get c (iterator.mByteIndex it) (iterator.mBitIndex it);
  Some (returnBit, iterator.incr it).

(** [getBitRef(byte_index, bit_index)]: the same selection, by reference. *)
Definition getBitRef (c : t) (byteIndex : byte_index) (bitIndex : bit_index)
    : option bit_ref.t :=
  if Nat.ltb byteIndex (length (mData c)) then
    _ ← mData c !! byteIndex;
    Some (bit_ref.mk (bit_ref.in_mData byteIndex) bitIndex)
  else Some (bit_ref.mk bit_ref.in_mIncompleteByte bitIndex).

(** [getBitRef(iterator&)] *)
Definition getBitRef_it (c : t) (it : iterator.t)
    : option (bit_ref.t * iterator.t) :=
  returnBitref ← getBitRef c (iterator.mByteIndex it) (iterator.mBitIndex it);
  Some (returnBitref, iterator.incr it).

(** [bit_ref::operator bit()]: [mOwner.get(mIndexAtOwner)]. *)
Definition bit_ref_read (c : t) (r : bit_ref.t) : option bit :=
  match bit_ref.mOwner r with
  | bit_ref.in_mData i =>
      b ← mData c !! i; Some (byte.get b (bit_ref.mIndexAtOwner r))
  | bit_ref.in_mIncompleteByte =>
      Some (byte.get (mByte (mIncompleteByte c)) (bit_ref.mIndexAtOwner r))
  end.

(** [bit_ref::operator=(bit)]: [mOwner.set(mIndexAtOwner, value)]. *)
Definition bit_ref_assign (c : t) (r : bit_ref.t) (v : bit) : option t :=
  match bit_ref.mOwner r with
  | bit_ref.in_mData i =>
      b ← mData c !! i;
      Some (mk (<[i := byte.set b (bit_ref.mIndexAtOwner r) v]> (mData c))
               (mIncompleteByte c) (mBitIndex c))
  | bit_ref.in_mIncompleteByte =>
      Some (mk (mData c)
               (IncompleteByte.mk
                  (byte.set (mByte (mIncompleteByte c))
                            (bit_ref.mIndexAtOwner r) v)
                  (mNumOfBits (mIncompleteByte c)))
               (mBitIndex c))
  end.

(** [push_back(bit)] *)
Definition push_back (c : t) (v : bit) : t :=
  let ib := mIncompleteByte c in
  let ib' :=
    IncompleteByte.mk (byte.set (mByte ib) (mNumOfBits ib) v)
                      (to_uchar (mNumOfBits ib + 1)) in
  if isFull ib' then
    mk (mData c ++ [mByte ib']) (IncompleteByte.mk (mByte ib') 0) (mBitIndex c)
  else mk (mData c) ib' (mBitIndex c).

(** [push_back(byte)]: the eight bits of the byte, one by one. *)
Definition push_back_byte (c : t) (b : byte.t) : t :=
  foldl (fun c i => push_back c (byte.get b i)) c bit_indices.

(** [push_back<TriviablyCopyableType>(value)]: [value] is given by its
    object representation [data[0..size)], pushed byte by byte. *)
Definition push_back_value (c : t) (data : list byte.t) : t :=
  foldl push_back_byte c data.

(** [pop_back]: [None] is the failed [assert(!mData.empty())]. *)
Definition pop_back (c : t) : option t :=
  let ib := mIncompleteByte c in
  if isThereAnIncompleteByte c then
    Some (mk (mData c)
             (IncompleteByte.mk (mByte ib) (to_uchar (mNumOfBits ib - 1)))
             (mBitIndex c))
  else
    back ← last (mData c);
    Some (mk (removelast (mData c))
             (IncompleteByte.mk back (to_uchar (sNumOfBitsInByte - 1)))
             (mBitIndex c)).

(** [clear] *)
Definition clear (c : t) : t :=
  mk [] (IncompleteByte.mk (mByte (mIncompleteByte c)) 0) (mBitIndex c).

(** *** Extraction

    The extraction routines reach the container through [it.mSource].  They
    are written in a state and error monad over the container, so that what
    they do to it is part of their meaning. *)

Definition M (A : Type) : Type := t -> option (A * t).

Definition ret {A} (a : A) : M A := fun c => Some (a, c).

Definition bind {A B} (m : M A) (k : A -> M B) : M B :=
  fun c => match m c with
           | Some (a, c') => k a c'
           | None => None
           end.

(** Dereferencing [mSource]. *)
Definition source : M t := fun c => Some (c, c).

(** An operation that is undefined when its result is [None]. *)
Definition defined {A} (o : option A) : M A :=
  fun c => match o with Some a => Some (a, c) | None => None end.

Fixpoint for_each {A I} (body : A -> I -> M A) (acc : A) (indices : list I)
    : M A :=
  match indices with
  | [] => ret acc
  | i :: rest => bind (body acc i) (fun acc' => for_each body acc' rest)
  end.

(** One turn of the loop of [getByte]:
    [bit bit = iterator.mSource->get(...); returnByte.set(i, bit);] and then
    [i++, ++iterator]. *)
Definition getByte_body (acc : byte.t * iterator.t) (i : bit_index)
    : M (byte.t * iterator.t) :=
  let '(returnByte, it) := acc in
  bind source (fun src =>
  bind (defined (get src (iterator.mByteIndex it) (iterator.mBitIndex it)))
    (fun v => ret (byte.set returnByte i v, iterator.incr it))).

(** [getByte(iterator&)]: the byte and the cursor as the call leaves it. *)
Definition getByte (it : iterator.t) : M (byte.t * iterator.t) :=
  if iterator.mBitIndex it =? 0 then
    bind source (fun src =>
    bind (defined (mData src !! iterator.mByteIndex it)) (fun b =>
    ret (b, it)))
  else for_each getByte_body (byte.zero, it) bit_indices.

(** One turn of [extract(char*, size_t, iterator&)]:
    [destination[i] = getByte(it);].  Writing past the buffer is undefined. *)
Definition extract_body (acc : list byte.t * iterator.t) (i : nat)
    : M (list byte.t * iterator.t) :=
  let '(destination, it) := acc in
  bind (getByte it) (fun '(b, it') =>
  bind (defined (destination !! i)) (fun _ =>
  ret (<[i := b]> destination, it'))).

(** [extract(char* destination, size_t amountOfBytesToExtract, iterator&)] *)
Definition extract_bytes (destination : list byte.t)
    (amountOfBytesToExtract : nat) (it : iterator.t)
    : M (list byte.t * iterator.t) :=
  for_each extract_body (destination, it) (seq 0 amountOfBytesToExtract).

(** [extract(char*, size_t, byte_index, bit_index)] *)
Definition extract_bytes_at (destination : list byte.t)
    (amountOfBytesToExtract : nat) (byteIndex : byte_index)
    (bitIndex : bit_index) : M (list byte.t) :=
  bind (extract_bytes destination amountOfBytesToExtract
          (iterator.mk byteIndex bitIndex))
       (fun '(destination', _) => ret destination').

(** [extract<TriviablyCopyableType>(iterator&)]: [numOfBytes] is
    [sizeof(TriviablyCopyableType)]; the result is the object representation
    of [returnValue], which starts out zeroed. *)
Definition extract (numOfBytes : nat) (it : iterator.t)
    : M (list byte.t * iterator.t) :=
  extract_bytes (replicate numOfBytes byte.zero) numOfBytes it.

(** [extract<TriviablyCopyableType>(byte_index, bit_index)] *)
Definition extract_at (numOfBytes : nat) (byteIndex : byte_index)
    (bitIndex : bit_index) : M (list byte.t) :=
  bind (extract numOfBytes (iterator.mk byteIndex bitIndex))
       (fun '(returnValue, _) => ret returnValue).

End dynamic_bitset.

(** ** The logical bit sequence and its clients

    What a caller observes of a container: the bits it holds, in order, and
    how many.  These definitions read the representation; they are not part
    of the header. *)

Import IncompleteByte dynamic_bitset.

(** The eight bits of a byte cell, position 0 first. *)
Definition byte_bits (b : byte.t) : list bit := byte.get b <$> bit_indices.

(** The byte cell whose positions hold the given bits: [set] applied to a
    zeroed byte at positions 0, 1, ... *)
Definition byte_of_bits (l : list bit) : byte.t :=
  foldl (fun b iv => byte.set b (fst iv) (snd iv)) byte.zero
        (zip bit_indices l).

Definition tail_count (c : t) : Z := mNumOfBits (mIncompleteByte c).

(** The bits of the full bytes, then the meaningful bits of the tail. *)
Definition bits (c : t) : list bit :=
  concat (byte_bits <$> mData c)
  ++ take (Z.to_nat (tail_count c)) (byte_bits (mByte (mIncompleteByte c))).

Definition logical_length (c : t) : Z :=
  8 * Z.of_nat (length (mData c)) + tail_count c.

(** The tail count of a container between two calls. *)
Definition wf (c : t) : Prop := 0 <= tail_count c < 8.

(** The cursor of the [p]-th logical bit. *)
Definition position (p : nat) : iterator.t :=
  iterator.mk (p / 8)%nat (Z.of_nat (p mod 8)).

(** Dereferencing a [const_iterator]; the conversion to [bit] of an
    [iterator]. *)
Definition deref (c : t) (it : iterator.t) : option bit :=
  get c (iterator.mByteIndex it) (iterator.mBitIndex it).

(** The client loop [for (auto it = c.begin(); it != c.end(); ++it)] that
    appends the bit under [it] to its output, run for at most [fuel] tests of
    its condition. *)
Fixpoint iterate_from (fuel : nat) (c : t) (it last : iterator.t)
    : option (list bit) :=
  match fuel with
  | O => None
  | S fuel' =>
      if iterator.neqb it last then
        v ← deref c it;
        rest ← iterate_from fuel' c (iterator.incr it) last;
        Some (v :: rest)
      else Some []
  end.

Definition to_list (fuel : nat) (c : t) : option (list bit) :=
  iterate_from fuel c (begin_ c) (end_ c).

(** Appending a sequence of bits one by one. *)
Definition push_back_all (c : t) (l : list bit) : t := foldl push_back c l.

(** Sequences of modifying calls, run on the container and on the sequence
    of bits a caller expects it to hold. *)
Inductive call : Type :=
| call_push_back (v : bit)
| call_pop_back
| call_clear.

Definition run_call (c : t) (k : call) : option t :=
  match k with
  | call_push_back v => Some (push_back c v)
  | call_pop_back => pop_back c
  | call_clear => Some (clear c)
  end.

Fixpoint run_calls (c : t) (ks : list call) : option t :=
  match ks with
  | [] => Some c
  | k :: ks' => c' ← run_call c k; run_calls c' ks'
  end.

(** [None]: [pop_back] was called with no bit left. *)
Definition expect_call (l : list bit) (k : call) : option (list bit) :=
  match k with
  | call_push_back v => Some (l ++ [v])
  | call_pop_back => match l with [] => None | _ => Some (removelast l) end
  | call_clear => Some []
  end.

Fixpoint expect_calls (l : list bit) (ks : list call) : option (list bit) :=
  match ks with
  | [] => Some l
  | k :: ks' => l' ← expect_call l k; expect_calls l' ks'
  end.

(** The bytes an extraction is to deliver from a run of bits: each group of
    eight bits, first bit in position 0. *)
Fixpoint bytes_from (l : list bit) (n : nat) : list byte.t :=
  match n with
  | O => []
  | S n' => byte_of_bits (take 8 l) :: bytes_from (drop 8 l) n'
  end.

(** A computation that leaves the container as it found it. *)
Definition preserves {A} (m : M A) : Prop :=
  forall c a c', m c = Some (a, c') -> c' = c.

(** The object representation of a [uint32_t], on a little-endian and on a
    big-endian host, and the value of an object representation. *)
Definition uint32_repr_le (v : Z) : list byte.t :=
  (fun i => byte.mk (to_uchar (Z.shiftr v (8 * Z.of_nat i)))) <$> seq 0 4.

Definition uint32_repr_be (v : Z) : list byte.t := reverse (uint32_repr_le v).

Definition uint32_value_le (data : list byte.t) : Z :=
  foldr (fun b acc => byte.mData b + 256 * acc) 0 data.

Definition uint32_value_be (data : list byte.t) : Z :=
  uint32_value_le (reverse data).

(** The number of increments that take a cursor from [begin()] to a
    position. *)
Definition cursor_index (it : iterator.t) : Z :=
  8 * Z.of_nat (iterator.mByteIndex it) + iterator.mBitIndex it.

(** ** Properties of the byte cell *)

Section ByteCell.

Lemma shiftAmount_small (i : bit_index) :
  0 <= i < 8 -> byte.shiftAmount i = 7 - i.
Proof.
  intros Hi. unfold byte.shiftAmount, to_uchar, sNumOfBitsInByte.
  rewrite Z.mod_small; lia.
Qed.

Lemma testbit_one_shifted (s k : Z) :
  0 <= s -> 0 <= k -> Z.testbit (Z.shiftl 1 s) k = (k =? s).
Proof.
  intros Hs Hk. rewrite Z.shiftl_1_l, Z.pow2_bits_eqb by assumption.
  apply Z.eqb_sym.
Qed.

Lemma testbit_b2z_shifted (v : bool) (s k : Z) :
  0 <= s -> 0 <= k ->
  Z.testbit (Z.shiftl (Z.b2z v) s) k = (k =? s) && v.
Proof.
  intros Hs Hk. destruct v; simpl Z.b2z.
  - rewrite testbit_one_shifted by assumption. now rewrite andb_true_r.
  - rewrite Z.shiftl_0_l, Z.bits_0. now rewrite andb_false_r.
Qed.

(** [get] reads bit [7 - index] of the representation. *)
Lemma get_testbit (b : byte.t) (i : bit_index) :
  0 <= i < 8 -> byte.get b i = Z.testbit (byte.mData b) (7 - i).
Proof.
  intros Hi. unfold byte.get. rewrite shiftAmount_small by assumption.
  set (s := 7 - i). assert (Hs : 0 <= s) by (unfold s; lia).
  destruct (Z.testbit (byte.mData b) s) eqn:Hb.
  - apply negb_true_iff, Z.eqb_neq. intros H0.
    assert (Ht : Z.testbit (Z.shiftr (Z.land (byte.mData b) (Z.shiftl 1 s)) s) 0 = true).
    { rewrite Z.shiftr_spec, Z.land_spec, Z.add_0_l by lia.
      rewrite Hb, testbit_one_shifted by lia. now rewrite Z.eqb_refl. }
    rewrite H0 in Ht. now rewrite Z.bits_0 in Ht.
  - apply negb_false_iff, Z.eqb_eq. apply Z.bits_inj'. intros k Hk.
    rewrite Z.shiftr_spec, Z.land_spec, Z.bits_0 by assumption.
    rewrite testbit_one_shifted by lia.
    destruct (Z.eqb_spec (k + s) s) as [He|Hne].
    + replace (k + s) with s by lia. now rewrite Hb.
    + apply andb_false_r.
Qed.

(** The bits of the representation after [set]. *)
Lemma set_testbit (b : byte.t) (i : bit_index) (v : bit) (k : Z) :
  0 <= i < 8 -> 0 <= k < 8 ->
  Z.testbit (byte.mData (byte.set b i v)) k =
  if k =? 7 - i then v else Z.testbit (byte.mData b) k.
Proof.
  intros Hi Hk. unfold byte.set. rewrite shiftAmount_small by assumption.
  set (s := 7 - i). assert (Hs : 0 <= s) by (unfold s; lia).
  cbn [byte.mData]. unfold to_uchar. change 256 with (2 ^ 8).
  rewrite Z.mod_pow2_bits_low by lia.
  rewrite Z.add_nocarry_lxor.
  - rewrite Z.lxor_spec, Z.land_spec, Z.lnot_spec by lia.
    rewrite testbit_one_shifted, testbit_b2z_shifted by lia.
    destruct (k =? s); simpl.
    + now rewrite andb_false_r.
    + now rewrite andb_true_r, xorb_false_r.
  - apply Z.bits_inj'. intros n Hn.
    rewrite !Z.land_spec, Z.lnot_spec, Z.bits_0 by assumption.
    rewrite testbit_one_shifted, testbit_b2z_shifted by lia.
    destruct (n =? s); simpl; [now rewrite andb_false_r | apply andb_false_r].
Qed.

Lemma set_in_range (b : byte.t) (i : bit_index) (v : bit) :
  byte.in_range (byte.set b i v).
Proof.
  unfold byte.in_range, byte.set, to_uchar. cbn [byte.mData].
  apply Z.mod_pos_bound. lia.
Qed.

Lemma get_set_same (b : byte.t) (i : bit_index) (v : bit) :
  0 <= i < 8 -> byte.get (byte.set b i v) i = v.
Proof.
  intros Hi. rewrite get_testbit, set_testbit by lia. now rewrite Z.eqb_refl.
Qed.

Lemma get_set_other (b : byte.t) (i j : bit_index) (v : bit) :
  0 <= i < 8 -> 0 <= j < 8 -> j <> i ->
  byte.get (byte.set b i v) j = byte.get b j.
Proof.
  intros Hi Hj Hne. rewrite !get_testbit, set_testbit by lia.
  destruct (Z.eqb_spec (7 - j) (7 - i)); [lia | reflexivity].
Qed.

End ByteCell.

(** C8. For every byte cell, every position in [0,8) and every boolean:
    [set] overwrites exactly the bit at that position and leaves the other
    seven unchanged, [get] returns the bit stored at that position, and
    position 0 is the most significant bit of the 8-bit representation, the
    shift amount being [8 - index - 1]. *)
Theorem byte_set_get_msb_first (b : byte.t) (i : bit_index) (v : bit) :
  0 <= i < 8 ->
  byte.get (byte.set b i v) i = v
  /\ (forall j, 0 <= j < 8 -> j <> i ->
        byte.get (byte.set b i v) j = byte.get b j)
  /\ byte.shiftAmount i = 8 - i - 1
  /\ byte.get b i = Z.testbit (byte.mData b) (8 - i - 1)
  /\ (forall k, 0 <= k < 8 ->
        Z.testbit (byte.mData (byte.set b i v)) k =
        if k =? 8 - i - 1 then v else Z.testbit (byte.mData b) k)
  /\ byte.in_range (byte.set b i v).
Proof.
  intros Hi. replace (8 - i - 1) with (7 - i) by lia.
  split; [now apply get_set_same|].
  split; [intros j Hj Hne; now apply get_set_other|].
  split; [now apply shiftAmount_small|].
  split; [now apply get_testbit|].
  split; [intros k Hk; now apply set_testbit|].
  apply set_in_range.
Qed.

Lemma byte_set_get_msb_first_witness :
  0 <= 0 < 8
  /\ byte.get (byte.set (byte.mk 37) 0 true) 0 = true
  /\ byte.mData (byte.set (byte.mk 37) 0 true) = 165.
Proof.
  split; [lia|]. split; [|reflexivity].
  exact (proj1 (byte_set_get_msb_first (byte.mk 37) 0 true
                  (conj (Z.le_refl 0) eq_refl))).
Defined.

(** ** The bits of a byte cell *)

Section ByteBits.

Lemma byte_bits_length (b : byte.t) : length (byte_bits b) = 8%nat.
Proof. reflexivity. Qed.

Lemma byte_bits_lookup (b : byte.t) (j : nat) :
  (j < 8)%nat -> byte_bits b !! j = Some (byte.get b (Z.of_nat j)).
Proof.
  intros Hj. unfold byte_bits, bit_indices.
  rewrite !list_lookup_fmap, lookup_seq_lt by assumption. reflexivity.
Qed.

Lemma byte_bits_set (b : byte.t) (i : bit_index) (v : bit) :
  0 <= i < 8 -> byte_bits (byte.set b i v) = <[Z.to_nat i := v]> (byte_bits b).
Proof.
  intros Hi. apply list_eq. intros j.
  destruct (decide (j < 8)%nat) as [Hj|Hj].
  - rewrite byte_bits_lookup by assumption.
    destruct (decide (j = Z.to_nat i)) as [->|Hne].
    + rewrite list_lookup_insert_eq by (rewrite byte_bits_length; lia).
      rewrite Z2Nat.id by lia. now rewrite get_set_same.
    + rewrite list_lookup_insert_ne by congruence.
      rewrite byte_bits_lookup by assumption.
      now rewrite get_set_other by lia.
  - rewrite !lookup_ge_None_2; [reflexivity| |];
      rewrite ?length_insert, byte_bits_length; lia.
Qed.

(** Writing position [k] of a byte extends its first [k] bits by one. *)
Lemma take_byte_bits_set (b : byte.t) (k : nat) (v : bit) :
  (k < 8)%nat ->
  take (S k) (byte_bits (byte.set b (Z.of_nat k) v)) = take k (byte_bits b) ++ [v].
Proof.
  intros Hk. rewrite byte_bits_set, Nat2Z.id by lia.
  erewrite take_S_r
    by (apply list_lookup_insert_eq; rewrite byte_bits_length; lia).
  now rewrite take_insert_ge by lia.
Qed.

Lemma take_byte_bits_S (b : byte.t) (k : nat) :
  (k < 8)%nat ->
  take (S k) (byte_bits b) = take k (byte_bits b) ++ [byte.get b (Z.of_nat k)].
Proof. intros Hk. apply take_S_r. now apply byte_bits_lookup. Qed.

Lemma concat_byte_bits_length (data : list byte.t) :
  length (concat (byte_bits <$> data)) = (8 * length data)%nat.
Proof.
  induction data as [|b data IH]; [reflexivity|].
  cbn [fmap list_fmap concat]. rewrite length_app, IH, byte_bits_length.
  cbn [length]. lia.
Qed.

Lemma concat_byte_bits_lookup (data : list byte.t) (i j : nat) :
  (j < 8)%nat ->
  concat (byte_bits <$> data) !! (8 * i + j)%nat =
  b ← data !! i; Some (byte.get b (Z.of_nat j)).
Proof.
  intros Hj. revert i. induction data as [|b data IH]; intros i.
  - reflexivity.
  - cbn [fmap list_fmap concat]. destruct i as [|i].
    + rewrite lookup_app_l by (rewrite byte_bits_length; lia).
      cbn [lookup list_lookup mbind option_bind].
      now apply byte_bits_lookup.
    + rewrite lookup_app_r by (rewrite byte_bits_length; lia).
      rewrite byte_bits_length.
      replace (8 * S i + j - 8)%nat with (8 * i + j)%nat by lia.
      apply IH.
Qed.

End ByteBits.

(** ** The container and its logical bit sequence *)

Section LogicalView.

Lemma wf_empty : wf empty.
Proof. unfold wf, tail_count. simpl. lia. Qed.

Lemma bits_empty : bits empty = [].
Proof. reflexivity. Qed.

Lemma bits_length (c : t) :
  wf c -> Z.of_nat (length (bits c)) = logical_length c.
Proof.
  unfold wf, bits, logical_length. intros Hwf.
  rewrite length_app, concat_byte_bits_length, length_take, byte_bits_length.
  lia.
Qed.

(** The two outcomes of [push_back(bit)], by the tail count. *)
Lemma push_back_unfold (c : t) (v : bit) :
  wf c ->
  push_back c v =
  let b := byte.set (mByte (mIncompleteByte c)) (tail_count c) v in
  if tail_count c =? 7 then
    dynamic_bitset.mk (mData c ++ [b]) (IncompleteByte.mk b 0) (mBitIndex c)
  else
    dynamic_bitset.mk (mData c) (IncompleteByte.mk b (tail_count c + 1))
                      (mBitIndex c).
Proof.
  unfold wf, tail_count, push_back, isFull, to_uchar, sNumOfBitsInByte.
  intros Hwf. cbn [mByte mNumOfBits].
  rewrite Z.mod_small by lia.
  destruct (Z.eqb_spec (mNumOfBits (mIncompleteByte c) + 1) 8);
    destruct (Z.eqb_spec (mNumOfBits (mIncompleteByte c)) 7);
    try lia; reflexivity.
Qed.

Lemma wf_push_back (c : t) (v : bit) : wf c -> wf (push_back c v).
Proof.
  intros Hwf. rewrite push_back_unfold by assumption. cbv zeta.
  unfold wf in *. destruct (Z.eqb_spec (tail_count c) 7);
    unfold tail_count in *; cbn [mIncompleteByte mNumOfBits]; lia.
Qed.

Lemma bits_push_back (c : t) (v : bit) :
  wf c -> bits (push_back c v) = bits c ++ [v].
Proof.
  intros Hwf. rewrite push_back_unfold by assumption. cbv zeta.
  pose proof Hwf as Hk. unfold wf in Hk.
  destruct (Z.eqb_spec (tail_count c) 7) as [H7|H7]; unfold bits, tail_count in *;
    cbn [mData mIncompleteByte mByte mNumOfBits].
  - rewrite fmap_app, concat_app. cbn [fmap list_fmap concat].
    rewrite H7. change (Z.to_nat 0) with 0%nat. change (Z.to_nat 7) with 7%nat.
    rewrite take_0, !app_nil_r, <- app_assoc. f_equal.
    rewrite <- (take_byte_bits_set _ 7) by lia.
    now rewrite take_ge by (rewrite byte_bits_length; lia).
  - rewrite <- app_assoc. f_equal.
    replace (Z.to_nat (mNumOfBits (mIncompleteByte c) + 1))
      with (S (Z.to_nat (mNumOfBits (mIncompleteByte c)))) by lia.
    pose proof (Z2Nat.id (mNumOfBits (mIncompleteByte c)) (proj1 Hk)) as Hid.
    assert (Hlt : (Z.to_nat (mNumOfBits (mIncompleteByte c)) < 8)%nat) by lia.
    revert Hid Hlt. generalize (Z.to_nat (mNumOfBits (mIncompleteByte c))).
    intros k <- Hlt. now apply take_byte_bits_set.
Qed.

Lemma wf_push_back_all (c : t) (l : list bit) : wf c -> wf (push_back_all c l).
Proof.
  revert c. induction l as [|v l IH]; intros c Hwf; [assumption|].
  apply IH. now apply wf_push_back.
Qed.

Lemma bits_push_back_all (c : t) (l : list bit) :
  wf c -> bits (push_back_all c l) = bits c ++ l.
Proof.
  revert c. induction l as [|v l IH]; intros c Hwf.
  - now rewrite app_nil_r.
  - cbn [push_back_all foldl]. fold (push_back_all (push_back c v) l).
    rewrite IH by now apply wf_push_back.
    rewrite bits_push_back by assumption. now rewrite <- app_assoc.
Qed.

Lemma wf_clear (c : t) : wf (clear c).
Proof. unfold wf, tail_count. simpl. lia. Qed.

Lemma bits_clear (c : t) : bits (clear c) = [].
Proof. reflexivity. Qed.

(** [pop_back] on a container that holds a bit. *)
Lemma pop_back_nonempty (c : t) :
  wf c -> bits c <> [] ->
  exists c', pop_back c = Some c' /\ wf c' /\ bits c' = removelast (bits c).
Proof.
  intros Hwf Hne. pose proof Hwf as Hk. unfold wf, tail_count in Hk.
  unfold pop_back, isThereAnIncompleteByte.
  destruct (Z.ltb_spec 0 (mNumOfBits (mIncompleteByte c))) as [Hpos|Hzero].
  - eexists. split; [reflexivity|].
    unfold wf, bits, tail_count, to_uchar. cbn [mData mIncompleteByte mByte mNumOfBits].
    rewrite Z.mod_small by lia. split; [lia|].
    replace (Z.to_nat (mNumOfBits (mIncompleteByte c)))
      with (S (Z.to_nat (mNumOfBits (mIncompleteByte c) - 1))) by lia.
    rewrite take_byte_bits_S by lia.
    now rewrite app_assoc, removelast_last.
  - assert (H0 : mNumOfBits (mIncompleteByte c) = 0) by lia.
    destruct (mData c) as [|b0 data0] eqn:Hdata using rev_ind.
    + exfalso. apply Hne. unfold bits, tail_count. now rewrite Hdata, H0.
    + rewrite last_snoc. cbn [mbind option_bind].
      rewrite removelast_last. eexists. split; [reflexivity|].
      unfold wf, bits, tail_count, to_uchar, sNumOfBitsInByte.
      cbn [mData mIncompleteByte mByte mNumOfBits].
      change ((8 - 1) mod 256) with 7. split; [lia|].
      rewrite Hdata, H0. change (Z.to_nat 7) with 7%nat.
      change (Z.to_nat 0) with 0%nat.
      rewrite fmap_app, concat_app. cbn [fmap list_fmap concat].
      rewrite take_0, !app_nil_r.
      rewrite <- (take_ge (byte_bits b0) 8) at 2 by (rewrite byte_bits_length; lia).
      rewrite (take_byte_bits_S _ 7) by lia.
      now rewrite app_assoc, removelast_last.
Qed.

Lemma pop_back_empty (c : t) : wf c -> bits c = [] -> pop_back c = None.
Proof.
  intros Hwf Hnil. pose proof (bits_length c Hwf) as Hlen.
  rewrite Hnil in Hlen. unfold logical_length, wf, tail_count in *.
  cbn [length] in Hlen.
  unfold pop_back, isThereAnIncompleteByte.
  destruct (Z.ltb_spec 0 (mNumOfBits (mIncompleteByte c))); [lia|].
  destruct (mData c); [reflexivity|]. cbn [length] in Hlen. lia.
Qed.

(** Reading a position below the logical length yields the logical bit. *)
Lemma deref_position (c : t) (p : nat) :
  wf c -> (p < length (bits c))%nat -> deref c (position p) = bits c !! p.
Proof.
  intros Hwf Hp. pose proof (bits_length c Hwf) as Hlen.
  unfold wf, logical_length, tail_count in *.
  unfold deref, position, get, select_byte.
  cbn [iterator.mByteIndex iterator.mBitIndex].
  assert (Hdm : p = (8 * (p / 8) + p mod 8)%nat) by (apply Nat.div_mod_eq).
  assert (Hm : (p mod 8 < 8)%nat) by (apply Nat.mod_upper_bound; lia).
  revert Hdm Hm. generalize (p / 8)%nat (p mod 8)%nat. intros q r -> Hm.
  unfold bits, tail_count in *.
  destruct (Nat.ltb_spec q (length (mData c))) as [Hin|Hout].
  - rewrite lookup_app_l by (rewrite concat_byte_bits_length; lia).
    now rewrite concat_byte_bits_lookup.
  - rewrite length_app, concat_byte_bits_length, length_take,
      byte_bits_length in Hp.
    rewrite lookup_app_r by (rewrite concat_byte_bits_length; lia).
    rewrite concat_byte_bits_length.
    replace (8 * q + r - 8 * length (mData c))%nat with r by lia.
    rewrite lookup_take_lt by lia.
    rewrite byte_bits_lookup by assumption. reflexivity.
Qed.

End LogicalView.

(** ** Cursors and iteration *)

Section Iteration.

Lemma incr_position (p : nat) :
  iterator.incr (position p) = position (S p).
Proof.
  unfold iterator.incr, position, to_uchar.
  cbn [iterator.mByteIndex iterator.mBitIndex].
  assert (Hm : (p mod 8 < 8)%nat) by (apply Nat.mod_upper_bound; lia).
  rewrite Z.mod_small by lia.
  destruct (Z.eqb_spec (Z.of_nat (p mod 8) + 1) 8) as [H8|H8].
  - f_equal; [|f_equal]; lia.
  - f_equal; [|f_equal]; lia.
Qed.

Lemma neqb_position (p q : nat) :
  iterator.neqb (position p) (position q) = negb (Nat.eqb p q).
Proof.
  unfold iterator.neqb, position.
  cbn [iterator.mByteIndex iterator.mBitIndex].
  destruct (Nat.eqb_spec p q) as [->|Hne].
  - now rewrite Nat.eqb_refl, Z.eqb_refl.
  - cbn [negb]. apply orb_true_iff.
    destruct (Nat.eqb_spec (p / 8) (q / 8)) as [Hd|Hd]; [right|now left].
    apply negb_true_iff, Z.eqb_neq. lia.
Qed.

Lemma begin_position (c : t) : begin_ c = position 0.
Proof. reflexivity. Qed.

Lemma end_position (c : t) :
  wf c -> end_ c = position (length (bits c)).
Proof.
  intros Hwf. pose proof (bits_length c Hwf) as Hlen.
  unfold wf, logical_length, tail_count in *.
  unfold end_, position, isThereAnIncompleteByte. f_equal.
  - lia.
  - destruct (Z.ltb_spec 0 (mNumOfBits (mIncompleteByte c))); lia.
Qed.

(** From position [p], the loop yields the bits from [p] on. *)
Lemma iterate_from_position (c : t) (n : nat) :
  wf c ->
  forall p fuel, (p + n = length (bits c))%nat -> (n < fuel)%nat ->
  iterate_from fuel c (position p) (end_ c) = Some (drop p (bits c)).
Proof.
  intros Hwf. rewrite end_position by assumption.
  induction n as [|n IH]; intros p fuel Hp Hfuel.
  - destruct fuel as [|fuel]; [lia|]. cbn [iterate_from].
    rewrite neqb_position. replace p with (length (bits c)) by lia.
    rewrite Nat.eqb_refl. cbn [negb]. now rewrite drop_all.
  - destruct fuel as [|fuel]; [lia|]. cbn [iterate_from].
    rewrite neqb_position.
    destruct (Nat.eqb_spec p (length (bits c))) as [He|_]; [lia|]. cbn [negb].
    rewrite deref_position by (assumption || lia).
    destruct (lookup_lt_is_Some_2 (bits c) p) as [v Hv]; [lia|].
    rewrite Hv. cbn [mbind option_bind].
    rewrite incr_position, IH by lia. cbn [mbind option_bind].
    now rewrite (drop_S _ _ _ Hv).
Qed.

Lemma to_list_bits (c : t) :
  wf c -> to_list (S (length (bits c))) c = Some (bits c).
Proof.
  intros Hwf. unfold to_list. rewrite begin_position.
  rewrite (iterate_from_position c (length (bits c))) by (assumption || lia).
  reflexivity.
Qed.

End Iteration.

(** C4. For every finite sequence of booleans, appending them one by one to
    an empty container and reading the positions from [begin()] to [end()]
    yields the same sequence, and the logical bit length, 8 times the number
    of full bytes plus the tail count, is the number of bits appended. *)
Theorem push_back_iterate_roundtrip (l : list bit) :
  to_list (S (length l)) (push_back_all empty l) = Some l
  /\ 8 * Z.of_nat (length (mData (push_back_all empty l)))
     + mNumOfBits (mIncompleteByte (push_back_all empty l))
     = Z.of_nat (length l).
Proof.
  pose proof (wf_push_back_all empty l wf_empty) as Hwf.
  pose proof (bits_push_back_all empty l wf_empty) as Hbits.
  rewrite bits_empty, app_nil_l in Hbits. split.
  - rewrite <- Hbits at 1 3. now apply to_list_bits.
  - pose proof (bits_length _ Hwf) as Hlen. rewrite Hbits in Hlen.
    unfold logical_length, tail_count in Hlen. lia.
Qed.

(** ** Sequences of modifying calls *)

Section Calls.

(** The container follows the sequence of bits its caller expects. *)
Lemma run_calls_refines (ks : list call) :
  forall c l, wf c -> expect_calls (bits c) ks = Some l ->
  exists c', run_calls c ks = Some c' /\ wf c' /\ bits c' = l.
Proof.
  induction ks as [|k ks IH]; intros c l Hwf Hexp.
  - exists c. cbn in Hexp. inversion Hexp. auto.
  - cbn [expect_calls run_calls] in *.
    destruct k as [v| |]; cbn [expect_call run_call mbind option_bind] in *.
    + rewrite <- bits_push_back in Hexp by assumption.
      apply IH; [now apply wf_push_back | assumption].
    + destruct (bits c) as [|x l0] eqn:Hbits; [discriminate|].
      destruct (pop_back_nonempty c Hwf) as (c' & Hpop & Hwf' & Hbits');
        [now rewrite Hbits|].
      rewrite Hpop. cbn [mbind option_bind] in *.
      rewrite Hbits in Hbits'. rewrite <- Hbits' in Hexp. now apply IH.
    + apply IH; [apply wf_clear | now rewrite bits_clear].
Qed.

(** A [pop_back] the caller has no bit left for fails its assertion. *)
Lemma run_calls_contract (ks : list call) :
  forall c, wf c -> expect_calls (bits c) ks = None -> run_calls c ks = None.
Proof.
  induction ks as [|k ks IH]; intros c Hwf Hexp; [discriminate|].
  cbn [expect_calls run_calls] in *.
  destruct k as [v| |]; cbn [expect_call run_call mbind option_bind] in *.
  - rewrite <- bits_push_back in Hexp by assumption.
    apply IH; [now apply wf_push_back | assumption].
  - destruct (bits c) as [|x l0] eqn:Hbits.
    + now rewrite pop_back_empty.
    + destruct (pop_back_nonempty c Hwf) as (c' & Hpop & Hwf' & Hbits');
        [now rewrite Hbits|].
      rewrite Hpop. cbn [mbind option_bind] in *.
      rewrite Hbits in Hbits'. rewrite <- Hbits' in Hexp. now apply IH.
  - apply IH; [apply wf_clear | now rewrite bits_clear].
Qed.

End Calls.

(** C5. After any finite sequence of [push_back(bit)], [pop_back] and [clear]
    calls that starts from the empty container and calls [pop_back] only when
    a bit is left, the tail count is in [0,8) and the logical bit length, the
    number of bits the calls leave, is 8 times the number of full bytes plus
    the tail count. *)
Theorem tail_accounting_invariant (ks : list call) (l : list bit) :
  expect_calls [] ks = Some l ->
  exists c,
    run_calls empty ks = Some c
    /\ 0 <= mNumOfBits (mIncompleteByte c) < 8
    /\ Z.of_nat (length l)
       = 8 * Z.of_nat (length (mData c)) + mNumOfBits (mIncompleteByte c).
Proof.
  intros Hexp.
  destruct (run_calls_refines ks empty l wf_empty Hexp) as (c & Hrun & Hwf & Hbits).
  exists c. split; [assumption|]. split; [exact Hwf|].
  rewrite <- Hbits. now apply bits_length.
Qed.

Lemma tail_accounting_invariant_witness :
  exists c,
    run_calls empty
      [call_push_back true; call_push_back false; call_pop_back; call_clear;
       call_push_back true] = Some c
    /\ 0 <= mNumOfBits (mIncompleteByte c) < 8
    /\ Z.of_nat (length [true])
       = 8 * Z.of_nat (length (mData c)) + mNumOfBits (mIncompleteByte c).
Proof.
  apply (tail_accounting_invariant
           [call_push_back true; call_push_back false; call_pop_back;
            call_clear; call_push_back true] [true]).
  reflexivity.
Defined.

(** C6. For every non-empty container, with [lastValue] the bit at the last
    logical position, [pop_back()] followed by [push_back(lastValue)] restores
    the logical bit sequence: the same length and the same bit at every
    position. *)
Theorem pop_back_push_back_inverse (c : t) (lastValue : bit) :
  wf c ->
  0 < logical_length c ->
  deref c (position (Z.to_nat (logical_length c) - 1)) = Some lastValue ->
  exists c',
    pop_back c = Some c'
    /\ logical_length (push_back c' lastValue) = logical_length c
    /\ (forall p : nat, Z.of_nat p < logical_length c ->
          deref (push_back c' lastValue) (position p) = deref c (position p))
    /\ bits (push_back c' lastValue) = bits c.
Proof.
  intros Hwf Hpos Hlast. pose proof (bits_length c Hwf) as Hlen.
  assert (Hne : bits c <> []).
  { intros Hnil. rewrite Hnil in Hlen. cbn [length] in Hlen. lia. }
  destruct (pop_back_nonempty c Hwf Hne) as (c' & Hpop & Hwf' & Hbits').
  exists c'. split; [assumption|].
  assert (Hsame : bits (push_back c' lastValue) = bits c).
  { rewrite bits_push_back, Hbits' by assumption.
    rewrite deref_position in Hlast by (assumption || lia).
    replace (Z.to_nat (logical_length c) - 1)%nat
      with (length (bits c) - 1)%nat in Hlast by lia.
    clear - Hlast Hne. destruct (bits c) as [|x l] using rev_ind; [congruence|].
    rewrite removelast_last. rewrite length_app in Hlast. cbn [length] in Hlast.
    rewrite lookup_app_r in Hlast by lia.
    replace (length l + 1 - 1 - length l)%nat with 0%nat in Hlast by lia.
    cbn in Hlast. congruence. }
  pose proof (wf_push_back c' lastValue Hwf') as Hwf''.
  split; [|split; [|assumption]].
  - rewrite <- Hlen, <- (bits_length _ Hwf''). now rewrite Hsame.
  - intros p Hp. rewrite !deref_position by (rewrite ?Hsame; assumption || lia).
    now rewrite Hsame.
Qed.

Lemma pop_back_push_back_inverse_witness :
  exists c',
    pop_back (push_back_all empty [true; false; true]) = Some c'
    /\ bits (push_back c' true) = bits (push_back_all empty [true; false; true]).
Proof.
  destruct (pop_back_push_back_inverse
              (push_back_all empty [true; false; true]) true) as (c' & H1 & _ & _ & H4).
  - unfold wf. vm_compute. split; congruence.
  - reflexivity.
  - reflexivity.
  - exists c'. split; assumption.
Defined.

(** C7. [pop_back] on a container whose tail holds no meaningful bit and
    which has a full byte: the last full byte moves into the tail, the tail
    count becomes 7 (the least significant bit of that byte is dropped) and
    the full-byte sequence shrinks by one.  After nine bits are pushed there
    are one full byte and a tail of one bit, and two [pop_back] calls leave no
    full byte and a tail count of 7. *)
Theorem pop_back_borrows_last_byte
    (c : t) (front : list byte.t) (back : byte.t) (nine : list bit) :
  mNumOfBits (mIncompleteByte c) = 0 ->
  mData c = front ++ [back] ->
  length nine = 9%nat ->
  (pop_back c
   = Some (dynamic_bitset.mk front (IncompleteByte.mk back 7) (mBitIndex c))
   /\ bits (dynamic_bitset.mk front (IncompleteByte.mk back 7) (mBitIndex c))
      = concat (byte_bits <$> front) ++ take 7 (byte_bits back))
  /\ (length (mData (push_back_all empty nine)) = 1%nat
      /\ mNumOfBits (mIncompleteByte (push_back_all empty nine)) = 1
      /\ exists c1 c2,
           pop_back (push_back_all empty nine) = Some c1
           /\ pop_back c1 = Some c2
           /\ mData c2 = []
           /\ mNumOfBits (mIncompleteByte c2) = 7).
Proof.
  intros Htail Hdata Hnine. split.
  - split; [|reflexivity].
    unfold pop_back, isThereAnIncompleteByte. rewrite Htail, Hdata.
    cbn [Z.ltb Z.compare]. rewrite last_snoc, removelast_last. reflexivity.
  - set (c9 := push_back_all empty nine).
    pose proof (wf_push_back_all empty nine wf_empty) as Hwf.
    pose proof (bits_length _ Hwf) as Hlen.
    rewrite bits_push_back_all, bits_empty, app_nil_l, Hnine in Hlen
      by apply wf_empty.
    fold c9 in Hwf, Hlen. unfold wf, logical_length, tail_count in *.
    assert (Hsize : length (mData c9) = 1%nat) by lia.
    assert (Hcount : mNumOfBits (mIncompleteByte c9) = 1) by lia.
    split; [assumption|]. split; [assumption|].
    destruct (mData c9) as [|b [|b' data]] eqn:Hbytes; try discriminate Hsize.
    eexists. eexists. split; [|split].
    + unfold pop_back, isThereAnIncompleteByte. rewrite Hcount. reflexivity.
    + unfold pop_back, isThereAnIncompleteByte.
      cbn [mIncompleteByte mNumOfBits mData mByte]. rewrite Hbytes.
      reflexivity.
    + split; reflexivity.
Qed.

Lemma pop_back_borrows_last_byte_witness :
  pop_back (push_back_all empty (replicate 8 true))
  = Some (dynamic_bitset.mk [] (IncompleteByte.mk (byte.mk 255) 7) 7).
Proof.
  exact (proj1 (proj1
    (pop_back_borrows_last_byte
       (push_back_all empty (replicate 8 true)) [] (byte.mk 255)
       (replicate 9 false) eq_refl eq_refl eq_refl))).
Defined.

(** C10. With the assertions compiled out, [get(byteIndex, bitIndex)] and
    [getBitRef(byteIndex, bitIndex)] are defined for every byte index and
    every bit index in [0,8): a byte index at or past the number of full
    bytes selects the tail byte cell and never indexes the full-byte sequence,
    so a read out of range returns a bit of the tail cell, stale or not. *)
Theorem get_out_of_range_reads_tail
    (c : t) (byteIndex : byte_index) (bitIndex : bit_index) :
  0 <= bitIndex < 8 ->
  (exists v, get c byteIndex bitIndex = Some v)
  /\ (exists r, getBitRef c byteIndex bitIndex = Some r
                /\ bit_ref_read c r = get c byteIndex bitIndex)
  /\ ((length (mData c) <= byteIndex)%nat ->
      get c byteIndex bitIndex
      = Some (byte.get (mByte (mIncompleteByte c)) bitIndex)
      /\ getBitRef c byteIndex bitIndex
         = Some (bit_ref.mk bit_ref.in_mIncompleteByte bitIndex)).
Proof.
  intros _. unfold get, getBitRef, select_byte, bit_ref_read.
  destruct (Nat.ltb_spec byteIndex (length (mData c))) as [Hin|Hout].
  - destruct (lookup_lt_is_Some_2 (mData c) byteIndex Hin) as [b Hb].
    rewrite Hb. cbn [mbind option_bind]. split; [eauto|]. split.
    + eexists. split; [reflexivity|].
      cbn [bit_ref.mOwner bit_ref.mIndexAtOwner]. now rewrite Hb.
    + intros Hge. lia.
  - cbn [mbind option_bind]. split; [eauto|]. split; [|auto].
    eexists. split; reflexivity.
Qed.

Lemma get_out_of_range_reads_tail_witness :
  0 <= 0 < 8
  /\ get (clear (push_back_all empty [true])) 5 0 = Some true
  /\ logical_length (clear (push_back_all empty [true])) = 0.
Proof.
  split; [lia|]. split; [|reflexivity].
  exact (proj1 (proj2 (proj2
    (get_out_of_range_reads_tail (clear (push_back_all empty [true])) 5 0
       (conj (Z.le_refl 0) eq_refl))) (Nat.le_0_l 5))).
Defined.

(** ** Extraction leaves the container alone *)

Section Frame.

Lemma preserves_ret {A} (a : A) : preserves (ret a).
Proof. intros c a' c' H. unfold ret in H. congruence. Qed.

Lemma preserves_source : preserves source.
Proof. intros c a' c' H. unfold source in H. congruence. Qed.

Lemma preserves_defined {A} (o : option A) : preserves (defined o).
Proof. intros c a' c' H. unfold defined in H. destruct o; congruence. Qed.

Lemma preserves_bind {A B} (m : M A) (k : A -> M B) :
  preserves m -> (forall a, preserves (k a)) -> preserves (bind m k).
Proof.
  intros Hm Hk c b c' H. unfold bind in H.
  destruct (m c) as [[a c1]|] eqn:Hmc; [|discriminate].
  apply Hm in Hmc. subst c1. now apply (Hk a) in H.
Qed.

Lemma preserves_for_each {A I} (body : A -> I -> M A) (indices : list I) :
  (forall acc i, preserves (body acc i)) ->
  forall acc, preserves (for_each body acc indices).
Proof.
  intros Hbody. induction indices as [|i rest IH]; intros acc; cbn [for_each].
  - apply preserves_ret.
  - apply preserves_bind; [apply Hbody | assumption].
Qed.

Lemma getByte_body_preserves acc i : preserves (getByte_body acc i).
Proof.
  destruct acc as [returnByte it]. unfold getByte_body.
  apply preserves_bind; [apply preserves_source|]. intros src.
  apply preserves_bind; [apply preserves_defined|]. intros v.
  apply preserves_ret.
Qed.

Lemma getByte_preserves it : preserves (getByte it).
Proof.
  unfold getByte. destruct (iterator.mBitIndex it =? 0).
  - apply preserves_bind; [apply preserves_source|]. intros src.
    apply preserves_bind; [apply preserves_defined|]. intros b.
    apply preserves_ret.
  - apply preserves_for_each. apply getByte_body_preserves.
Qed.

Lemma extract_body_preserves acc i : preserves (extract_body acc i).
Proof.
  destruct acc as [destination it]. unfold extract_body.
  apply preserves_bind; [apply getByte_preserves|]. intros [b it'].
  apply preserves_bind; [apply preserves_defined|]. intros _.
  apply preserves_ret.
Qed.

Lemma extract_bytes_preserves destination n it :
  preserves (extract_bytes destination n it).
Proof. apply preserves_for_each. apply extract_body_preserves. Qed.

Lemma extract_at_preserves n byteIndex bitIndex :
  preserves (extract_at n byteIndex bitIndex).
Proof.
  unfold extract_at, extract.
  apply preserves_bind; [apply extract_bytes_preserves|]. intros [v it'].
  apply preserves_ret.
Qed.

End Frame.

(** ** The two paths of [getByte] *)

Section GetByte.

(** The fast path hands back the cell under the cursor and the cursor as it
    received it. *)
Lemma getByte_aligned (c : t) (byteIndex : byte_index) (b : byte.t) :
  mData c !! byteIndex = Some b ->
  getByte (iterator.mk byteIndex 0) c = Some ((b, iterator.mk byteIndex 0), c).
Proof.
  intros Hb. unfold getByte, bind, source, defined, ret.
  cbn [iterator.mBitIndex iterator.mByteIndex Z.eqb]. now rewrite Hb.
Qed.

(** Every byte an aligned extraction delivers is that first cell. *)
Lemma extract_bytes_aligned (c : t) (byteIndex : byte_index) (b : byte.t)
    (n : nat) :
  mData c !! byteIndex = Some b ->
  forall i destination, (i + n <= length destination)%nat ->
  for_each extract_body (destination, iterator.mk byteIndex 0) (seq i n) c
  = Some ((take i destination ++ replicate n b ++ drop (i + n) destination,
           iterator.mk byteIndex 0), c).
Proof.
  intros Hb. induction n as [|n IH]; intros i destination Hlen.
  - cbn [seq for_each replicate app]. unfold ret.
    now rewrite Nat.add_0_r, take_drop.
  - cbn [seq for_each]. unfold bind at 1. unfold extract_body at 1.
    unfold bind at 1. rewrite (getByte_aligned _ _ _ Hb).
    destruct (lookup_lt_is_Some_2 destination i) as [d Hd]; [lia|].
    unfold bind at 1, defined, ret. rewrite Hd.
    rewrite IH by (rewrite length_insert; lia).
    do 3 f_equal.
    erewrite take_S_r by (apply list_lookup_insert_eq; lia).
    rewrite take_insert_ge by lia.
    rewrite drop_insert_lt by lia.
    rewrite <- app_assoc. cbn [replicate app].
    now replace (S i + n)%nat with (i + S n)%nat by lia.
Qed.

(** The loop of the slow path, from any turn on. *)
Lemma getByte_loop (c : t) (indices : list Z) :
  wf c ->
  forall p returnByte, (p + length indices <= length (bits c))%nat ->
  for_each getByte_body (returnByte, position p) indices c
  = Some ((foldl (fun b iv => byte.set b (fst iv) (snd iv)) returnByte
             (zip indices (drop p (bits c))),
           position (p + length indices)), c).
Proof.
  intros Hwf. induction indices as [|i indices IH]; intros p returnByte Hp.
  - cbn [for_each zip zip_with foldl length]. unfold ret.
    now rewrite Nat.add_0_r.
  - cbn [length] in Hp. cbn [for_each]. unfold bind at 1.
    unfold getByte_body, bind, source, defined, ret.
    assert (Hlt : (p < length (bits c))%nat) by (clear - Hp; lia).
    pose proof (deref_position c p Hwf Hlt) as Hd. unfold deref in Hd.
    rewrite Hd. clear Hd.
    destruct (lookup_lt_is_Some_2 (bits c) p Hlt) as [v Hv].
    rewrite Hv, incr_position, IH by lia.
    rewrite (drop_S _ _ _ Hv). cbn [zip zip_with foldl fst snd length].
    now replace (S p + length indices)%nat with (p + S (length indices))%nat
      by lia.
Qed.

Lemma position_aligned (p : nat) :
  (iterator.mBitIndex (position p) =? 0) = (p mod 8 =? 0)%nat.
Proof.
  unfold position. cbn [iterator.mBitIndex].
  destruct (Z.eqb_spec (Z.of_nat (p mod 8)) 0), (Nat.eqb_spec (p mod 8) 0);
    try reflexivity; lia.
Qed.

(** Off a byte boundary, [getByte] assembles the next eight bits and moves
    the cursor past them. *)
Lemma getByte_unaligned (c : t) (p : nat) :
  wf c -> (p mod 8 <> 0)%nat -> (p + 8 <= length (bits c))%nat ->
  getByte (position p) c
  = Some ((byte_of_bits (take 8 (drop p (bits c))), position (p + 8)), c).
Proof.
  intros Hwf Hp Hlen. unfold getByte. rewrite position_aligned.
  destruct (Nat.eqb_spec (p mod 8) 0) as [|_]; [contradiction|].
  rewrite getByte_loop by (assumption || (cbn; lia)).
  unfold byte_of_bits.
  now rewrite (zip_with_take_r' pair 8 bit_indices)
    by (change (length bit_indices) with 8%nat; lia).
Qed.

End GetByte.

(** ** Bytes as groups of eight bits *)

Section BytesAndBits.

Lemma byte_bits_of_bits (l : list bit) :
  length l = 8%nat -> byte_bits (byte_of_bits l) = l.
Proof.
  intros Hl.
  destruct l as [|v0 [|v1 [|v2 [|v3 [|v4 [|v5 [|v6 [|v7 [|v8 l]]]]]]]]];
    try discriminate Hl.
  unfold byte_of_bits, bit_indices.
  cbn [seq fmap list_fmap zip_with foldl fst snd Z.of_nat Pos.of_succ_nat
       Pos.succ].
  rewrite !byte_bits_set by lia. reflexivity.
Qed.

Lemma byte_of_bits_in_range (l : list bit) :
  length l = 8%nat -> byte.in_range (byte_of_bits l).
Proof.
  intros Hl.
  destruct l as [|v0 [|v1 [|v2 [|v3 [|v4 [|v5 [|v6 [|v7 [|v8 l]]]]]]]]];
    try discriminate Hl.
  unfold byte_of_bits, bit_indices.
  cbn [seq fmap list_fmap zip_with foldl fst snd].
  apply set_in_range.
Qed.

(** Two cells an [unsigned char] can hold that agree on their eight
    positions are the same cell. *)
Lemma byte_bits_inj (b b' : byte.t) :
  byte.in_range b -> byte.in_range b' -> byte_bits b = byte_bits b' -> b = b'.
Proof.
  destruct b as [d], b' as [d']. unfold byte.in_range. cbn [byte.mData].
  intros Hd Hd' Hbits. f_equal. apply Z.bits_inj'. intros k Hk.
  destruct (Z_lt_le_dec k 8) as [Hlt|Hge].
  - assert (Hj : (Z.to_nat (7 - k) < 8)%nat) by lia.
    pose proof (byte_bits_lookup (byte.mk d) _ Hj) as H1.
    pose proof (byte_bits_lookup (byte.mk d') _ Hj) as H2.
    rewrite Hbits, H2 in H1. inversion H1 as [Hget].
    rewrite !get_testbit in Hget by lia. cbn [byte.mData] in Hget.
    replace (7 - Z.of_nat (Z.to_nat (7 - k))) with k in Hget by lia.
    congruence.
  - rewrite <- (Z.mod_small d 256), <- (Z.mod_small d' 256) by assumption.
    change 256 with (2 ^ 8). now rewrite !Z.mod_pow2_bits_high by lia.
Qed.

Lemma byte_of_bits_byte_bits (b : byte.t) :
  byte.in_range b -> byte_of_bits (byte_bits b) = b.
Proof.
  intros Hb. apply byte_bits_inj; [|assumption|].
  - now apply byte_of_bits_in_range.
  - now apply byte_bits_of_bits.
Qed.

Lemma bytes_from_concat (data : list byte.t) (rest : list bit) :
  Forall byte.in_range data ->
  bytes_from (concat (byte_bits <$> data) ++ rest) (length data) = data.
Proof.
  induction 1 as [|b data Hb _ IH]; [reflexivity|].
  cbn [fmap list_fmap concat length bytes_from]. rewrite <- app_assoc.
  rewrite (take_app_length' (byte_bits b)), (drop_app_length' (byte_bits b))
    by reflexivity.
  now rewrite byte_of_bits_byte_bits, IH.
Qed.

Lemma push_back_byte_all (c : t) (b : byte.t) :
  push_back_byte c b = push_back_all c (byte_bits b).
Proof.
  unfold push_back_byte, push_back_all, byte_bits. now rewrite foldl_fmap.
Qed.

Lemma wf_push_back_value (c : t) (data : list byte.t) :
  wf c -> wf (push_back_value c data).
Proof.
  revert c. induction data as [|b data IH]; intros c Hwf; [assumption|].
  cbn [push_back_value foldl]. apply IH.
  rewrite push_back_byte_all. now apply wf_push_back_all.
Qed.

Lemma bits_push_back_value (c : t) (data : list byte.t) :
  wf c ->
  bits (push_back_value c data) = bits c ++ concat (byte_bits <$> data).
Proof.
  revert c. induction data as [|b data IH]; intros c Hwf.
  - cbn. now rewrite app_nil_r.
  - cbn [push_back_value foldl]. fold (push_back_value (push_back_byte c b) data).
    rewrite push_back_byte_all.
    rewrite IH by now apply wf_push_back_all.
    rewrite bits_push_back_all by assumption.
    cbn [fmap list_fmap concat]. now rewrite <- app_assoc.
Qed.

End BytesAndBits.

(** ** Extraction of runs of bytes *)

Section Extraction.

Lemma position_of (byteIndex : byte_index) (bitIndex : bit_index) :
  0 <= bitIndex < 8 ->
  iterator.mk byteIndex bitIndex = position (8 * byteIndex + Z.to_nat bitIndex).
Proof. intros Hj. unfold position. f_equal; lia. Qed.

(** Off a byte boundary every turn of the loop takes the slow path, and the
    buffer receives the bytes the bits under the cursor spell. *)
Lemma extract_bytes_unaligned (c : t) (n : nat) :
  wf c ->
  forall p i destination,
    (p mod 8 <> 0)%nat ->
    (p + 8 * n <= length (bits c))%nat ->
    (i + n <= length destination)%nat ->
    for_each extract_body (destination, position p) (seq i n) c
    = Some ((take i destination ++ bytes_from (drop p (bits c)) n
               ++ drop (i + n) destination,
             position (p + 8 * n)), c).
Proof.
  intros Hwf. induction n as [|n IH]; intros p i destination Hp Hlen Hdest.
  - cbn [seq for_each bytes_from app]. unfold ret.
    rewrite Nat.add_0_r, take_drop.
    now replace (p + 8 * 0)%nat with p by lia.
  - cbn [seq for_each]. unfold bind at 1. unfold extract_body at 1.
    unfold bind at 1. rewrite getByte_unaligned by (assumption || lia).
    destruct (lookup_lt_is_Some_2 destination i) as [d Hd]; [lia|].
    unfold bind at 1, defined, ret. rewrite Hd.
    rewrite IH by (rewrite ?length_insert; lia).
    cbn [bytes_from]. rewrite drop_drop.
    erewrite take_S_r by (apply list_lookup_insert_eq; lia).
    rewrite take_insert_ge by lia.
    rewrite drop_insert_lt by lia.
    rewrite <- app_assoc. cbn [app].
    replace (S i + n)%nat with (i + S n)%nat by lia.
    now replace (p + 8 + 8 * n)%nat with (p + 8 * S n)%nat by lia.
Qed.

Lemma extract_unaligned (c : t) (n p : nat) :
  wf c -> (p mod 8 <> 0)%nat -> (p + 8 * n <= length (bits c))%nat ->
  extract n (position p) c
  = Some ((bytes_from (drop p (bits c)) n, position (p + 8 * n)), c).
Proof.
  intros Hwf Hp Hlen. unfold extract, extract_bytes.
  rewrite extract_bytes_unaligned
    by (assumption || (rewrite ?length_replicate; lia)).
  cbn [take app plus].
  now rewrite (drop_ge (replicate n byte.zero)), app_nil_r
    by (rewrite length_replicate; lia).
Qed.

(** On a byte boundary every turn takes the fast path from the same
    cursor, and the buffer receives the same cell [n] times. *)
Lemma extract_aligned (c : t) (n : nat) (byteIndex : byte_index) (b : byte.t) :
  mData c !! byteIndex = Some b ->
  extract n (iterator.mk byteIndex 0) c
  = Some ((replicate n b, iterator.mk byteIndex 0), c).
Proof.
  intros Hb. unfold extract, extract_bytes.
  rewrite (extract_bytes_aligned c byteIndex b n Hb)
    by (rewrite length_replicate; lia).
  cbn [take app plus].
  now rewrite (drop_ge (replicate n byte.zero)), app_nil_r
    by (rewrite length_replicate; lia).
Qed.

(** The returned byte of the two paths is the same where both apply: the
    loop of the slow path run from a byte boundary rebuilds the cell the
    fast path returns.  The cursors they leave differ by eight bits. *)
Lemma getByte_paths_agree (c : t) (byteIndex : byte_index) (b : byte.t) :
  wf c -> byte.in_range b -> mData c !! byteIndex = Some b ->
  getByte (iterator.mk byteIndex 0) c
  = Some ((b, iterator.mk byteIndex 0), c)
  /\ for_each getByte_body (byte.zero, iterator.mk byteIndex 0) bit_indices c
     = Some ((b, iterator.mk (S byteIndex) 0), c).
Proof.
  intros Hwf Hrange Hb. split; [now apply getByte_aligned|].
  pose proof (lookup_lt_Some _ _ _ Hb) as Hlt.
  pose proof (bits_length c Hwf) as Hlen.
  unfold wf, logical_length in *.
  rewrite (position_of byteIndex 0) by lia.
  rewrite getByte_loop
    by (assumption || (change (length bit_indices) with 8%nat; lia)).
  change (length bit_indices) with 8%nat.
  rewrite (position_of (S byteIndex) 0) by lia.
  replace (8 * S byteIndex + Z.to_nat 0)%nat
    with (8 * byteIndex + Z.to_nat 0 + 8)%nat by lia.
  do 3 f_equal.
  rewrite <- (zip_with_take_r' pair 8 bit_indices)
    by (change (length bit_indices) with 8%nat; lia).
  fold (byte_of_bits (take 8 (drop (8 * byteIndex + Z.to_nat 0) (bits c)))).
  rewrite <- (byte_of_bits_byte_bits b Hrange) at 1. f_equal.
  apply list_eq. intros j. rewrite lookup_take, lookup_drop.
  destruct (decide (j < 8)%nat) as [Hj|Hj].
  - unfold bits. rewrite lookup_app_l by (rewrite concat_byte_bits_length; lia).
    replace (8 * byteIndex + Z.to_nat 0 + j)%nat with (8 * byteIndex + j)%nat
      by lia.
    rewrite concat_byte_bits_lookup, Hb by assumption.
    cbn [mbind option_bind]. now rewrite byte_bits_lookup.
  - now rewrite lookup_ge_None_2 by (rewrite byte_bits_length; lia).
Qed.

(** Away from a byte boundary a pushed value is read back as it was
    written. *)
Lemma push_back_extract_unaligned (c : t) (data : list byte.t) :
  wf c -> 0 < tail_count c -> Forall byte.in_range data ->
  extract_at (length data) (length (mData c)) (tail_count c)
             (push_back_value c data)
  = Some (data, push_back_value c data).
Proof.
  intros Hwf Hpos Hdata. pose proof (bits_length c Hwf) as Hlen.
  pose proof (wf_push_back_value c data Hwf) as Hwf'.
  pose proof (bits_push_back_value c data Hwf) as Hbits.
  unfold extract_at, bind.
  assert (Hit : iterator.mk (length (mData c)) (tail_count c)
                = position (length (bits c))).
  { rewrite <- end_position by assumption.
    unfold end_, isThereAnIncompleteByte, tail_count in *.
    now destruct (Z.ltb_spec 0 (mNumOfBits (mIncompleteByte c))); [|lia]. }
  rewrite Hit. unfold wf, logical_length in *.
  rewrite extract_unaligned.
  - unfold ret. rewrite Hbits, drop_app_length.
    rewrite <- (app_nil_r (concat _)). now rewrite bytes_from_concat.
  - assumption.
  - lia.
  - rewrite Hbits, length_app, concat_byte_bits_length. lia.
Qed.

End Extraction.

(** C9. [extract<T>(byteIndex, bitIndex)] leaves the container as it was:
    for every container and every starting position with [sizeof(T)] bytes
    of bits after it, the call returns, and the full-byte sequence, the tail
    byte and the tail count are the same before and after. *)
Theorem extract_at_leaves_container
    (c : t) (numOfBytes : nat) (byteIndex : byte_index) (bitIndex : bit_index) :
  wf c ->
  0 <= bitIndex < 8 ->
  8 * Z.of_nat byteIndex + bitIndex + 8 * Z.of_nat numOfBytes
    <= logical_length c ->
  exists returnValue c',
    extract_at numOfBytes byteIndex bitIndex c = Some (returnValue, c')
    /\ mData c' = mData c
    /\ mByte (mIncompleteByte c') = mByte (mIncompleteByte c)
    /\ mNumOfBits (mIncompleteByte c') = mNumOfBits (mIncompleteByte c)
    /\ c' = c.
Proof.
  intros Hwf Hbit Hrange.
  assert (Hdef : exists returnValue c',
             extract_at numOfBytes byteIndex bitIndex c = Some (returnValue, c')).
  { pose proof (bits_length c Hwf) as Hlen. unfold extract_at, bind.
    destruct (Z.eq_dec bitIndex 0) as [->|Hne].
    - destruct numOfBytes as [|n]; [cbn; eauto|].
      unfold wf, logical_length in *.
      destruct (lookup_lt_is_Some_2 (mData c) byteIndex) as [b Hb]; [lia|].
      rewrite (extract_aligned _ _ _ _ Hb). cbn. eauto.
    - rewrite (position_of byteIndex bitIndex) by assumption.
      rewrite extract_unaligned by (assumption || lia). cbn. eauto. }
  destruct Hdef as (returnValue & c' & Hrun).
  pose proof (extract_at_preserves _ _ _ _ _ _ Hrun) as ->.
  exists returnValue, c. auto.
Qed.

Lemma extract_at_leaves_container_witness :
  exists returnValue c',
    extract_at 1 0 3 (push_back_all empty (replicate 12 true))
    = Some (returnValue, c')
    /\ c' = push_back_all empty (replicate 12 true).
Proof.
  destruct (extract_at_leaves_container
              (push_back_all empty (replicate 12 true)) 1 0 3)
    as (v & c' & H1 & _ & _ & _ & H5).
  - unfold wf. vm_compute. split; congruence.
  - lia.
  - vm_compute. congruence.
  - exists v, c'. split; assumption.
Defined.

(** C1, as the code has it.  The claim is that [getByte] on a byte-aligned
    cursor returns the cell at the cursor's byte index and advances the cursor
    by eight bits.  On the container holding the bytes 0x12 and 0x34 and the
    cursor (0, 0) the call returns the cell 0x12 and leaves the cursor at
    (0, 0), which is not the position eight bits further. *)
Theorem getByte_aligned_cursor_stays :
  let c := push_back_value empty [byte.mk 0x12; byte.mk 0x34] in
  mData c = [byte.mk 0x12; byte.mk 0x34]
  /\ getByte (iterator.mk 0 0) c = Some ((byte.mk 0x12, iterator.mk 0 0), c)
  /\ iterator.mk 0 0 <> position 8
  /\ getByte (iterator.mk 0 0) c <> Some ((byte.mk 0x12, position 8), c).
Proof.
  cbv zeta. split; [vm_compute; reflexivity|].
  split; [vm_compute; reflexivity|].
  split; [discriminate|]. intros H. vm_compute in H. discriminate H.
Qed.

(** C2, as the code has it.  The claim is that [push_back(v)] followed by
    [extract<T>] from the position before the push gives [v] back.  For the
    [uint32_t] 0x12345678 pushed onto the empty container,
    [extract<uint32_t>(0, 0)] returns four copies of the first byte of the
    representation: 0x78787878 on a little-endian host, 0x12121212 on a
    big-endian one. *)
Theorem push_back_extract_uint32_aligned :
  let le := push_back_value empty (uint32_repr_le 0x12345678) in
  let be := push_back_value empty (uint32_repr_be 0x12345678) in
  (exists returnValue,
     extract_at 4 0 0 le = Some (returnValue, le)
     /\ uint32_value_le returnValue = 0x78787878
     /\ returnValue <> uint32_repr_le 0x12345678)
  /\ (exists returnValue,
        extract_at 4 0 0 be = Some (returnValue, be)
        /\ uint32_value_be returnValue = 0x12121212
        /\ returnValue <> uint32_repr_be 0x12345678).
Proof.
  cbv zeta. split.
  - exists (replicate 4 (byte.mk 0x78)).
    split; [vm_compute; reflexivity|]. split; [vm_compute; reflexivity|].
    intros H. vm_compute in H. discriminate H.
  - exists (replicate 4 (byte.mk 0x12)).
    split; [vm_compute; reflexivity|]. split; [vm_compute; reflexivity|].
    intros H. vm_compute in H. discriminate H.
Qed.

(** C3, as the code has it.  The claim is that extraction of the same bit
    content gives the same bytes from every bit offset 0..7.  For the content
    0x12 0x34 placed after [k] padding bits and extracted from (0, [k]), the
    offsets 1..7 give 0x12 0x34 and the offset 0 gives 0x12 0x12. *)
Theorem extract_offsets_disagree :
  let content := [byte.mk 0x12; byte.mk 0x34] in
  let placed k := push_back_value (push_back_all empty (replicate k false)) content in
  Forall (fun k => extract_at 2 0 (Z.of_nat k) (placed k) = Some (content, placed k))
         (seq 1 7)
  /\ extract_at 2 0 0 (placed 0%nat)
     = Some ([byte.mk 0x12; byte.mk 0x12], placed 0%nat)
  /\ [byte.mk 0x12; byte.mk 0x12] <> content.
Proof.
  cbv zeta. split; [|split; [vm_compute; reflexivity|discriminate]].
  cbn [seq].
  repeat (apply List.Forall_cons; [vm_compute; reflexivity|]).
  apply List.Forall_nil.
Qed.


(** * Further properties of the header *)

(** ** Laws of the byte cell *)

Section ByteLaws.

Lemma byte_eq_of_testbits (b b' : byte.t) :
  byte.in_range b -> byte.in_range b' ->
  (forall k, 0 <= k < 8 ->
     Z.testbit (byte.mData b) k = Z.testbit (byte.mData b') k) ->
  b = b'.
Proof.
  destruct b as [d], b' as [d']. unfold byte.in_range. cbn [byte.mData].
  intros Hd Hd' Hbits. f_equal. apply Z.bits_inj'. intros k Hk.
  destruct (Z_lt_le_dec k 8) as [Hlt|Hge]; [apply Hbits; lia|].
  rewrite <- (Z.mod_small d 256), <- (Z.mod_small d' 256) by assumption.
  change 256 with (2 ^ 8). now rewrite !Z.mod_pow2_bits_high by lia.
Qed.

End ByteLaws.

(** X1. Writing back the bit a position already holds leaves an
    [unsigned char] cell as it is. *)
Theorem byte_set_get_id (b : byte.t) (i : bit_index) :
  byte.in_range b -> 0 <= i < 8 -> byte.set b i (byte.get b i) = b.
Proof.
  intros Hb Hi. apply byte_eq_of_testbits; [apply set_in_range | assumption |].
  intros k Hk. rewrite set_testbit by assumption.
  destruct (Z.eqb_spec k (7 - i)) as [->|_]; [|reflexivity].
  now apply get_testbit.
Qed.

Lemma byte_set_get_id_witness :
  byte.set (byte.mk 165) 2 (byte.get (byte.mk 165) 2) = byte.mk 165.
Proof.
  apply (byte_set_get_id (byte.mk 165) 2); unfold byte.in_range; cbn; lia.
Defined.

(** X2. Two writes to a byte cell: the later write to the same position wins,
    and writes to different positions can be done in either order. *)
Theorem byte_set_set (b : byte.t) (i j : bit_index) (v w : bit) :
  0 <= i < 8 -> 0 <= j < 8 ->
  byte.set (byte.set b i v) i w = byte.set b i w
  /\ (i <> j ->
      byte.set (byte.set b i v) j w = byte.set (byte.set b j w) i v).
Proof.
  intros Hi Hj. split; [|intros Hne];
    (apply byte_eq_of_testbits; [apply set_in_range | apply set_in_range |]);
    intros k Hk; rewrite !set_testbit by assumption.
  - now destruct (k =? 7 - i).
  - destruct (Z.eqb_spec k (7 - i)), (Z.eqb_spec k (7 - j)); try reflexivity.
    lia.
Qed.

Lemma byte_set_set_witness :
  byte.set (byte.set (byte.mk 0) 1 true) 1 false = byte.set (byte.mk 0) 1 false
  /\ byte.set (byte.set (byte.mk 0) 1 true) 6 true
     = byte.set (byte.set (byte.mk 0) 6 true) 1 true.
Proof.
  destruct (byte_set_set (byte.mk 0) 1 6 true true) as [_ H2]; [lia|lia|].
  destruct (byte_set_set (byte.mk 0) 1 1 true false) as [H1 _]; [lia|lia|].
  split; [exact H1 | apply H2; lia].
Defined.

(** X3. An [unsigned char] cell is determined by what [get] returns at its
    eight positions. *)
Theorem byte_get_extensional (b b' : byte.t) :
  byte.in_range b -> byte.in_range b' ->
  (forall i, 0 <= i < 8 -> byte.get b i = byte.get b' i) ->
  b = b'.
Proof.
  intros Hb Hb' Hget. apply byte_eq_of_testbits; try assumption.
  intros k Hk. specialize (Hget (7 - k) ltac:(lia)).
  rewrite !get_testbit in Hget by lia.
  now replace (7 - (7 - k)) with k in Hget by lia.
Qed.

Lemma byte_get_extensional_witness :
  byte.set (byte.mk 0) 0 true = byte.mk 128.
Proof.
  apply byte_get_extensional.
  - apply set_in_range.
  - unfold byte.in_range. cbn. lia.
  - intros i Hi.
    assert (Hc : i = 0 \/ i = 1 \/ i = 2 \/ i = 3 \/ i = 4 \/ i = 5 \/ i = 6 \/ i = 7)
      by lia.
    destruct Hc as [->|[->|[->|[->|[->|[->|[->| ->]]]]]]]; reflexivity.
Defined.

(** ** Single calls, seen through the positions a caller can read *)

Section Reads.


(** Containers with the same bits read the same at every position below
    their length. *)
Lemma deref_of_bits (c c' : t) (p : nat) :
  wf c -> wf c' -> (p < length (bits c))%nat ->
  take (length (bits c)) (bits c') = bits c ->
  deref c' (position p) = deref c (position p).
Proof.
  intros Hwf Hwf' Hp Hpre.
  assert (Hle : (length (bits c) <= length (bits c'))%nat).
  { apply (f_equal length) in Hpre. rewrite length_take in Hpre. lia. }
  rewrite !deref_position by (assumption || lia).
  rewrite <- Hpre at 1. now rewrite lookup_take_lt.
Qed.

Lemma length_bits_nat (c : t) :
  wf c -> length (bits c) = Z.to_nat (logical_length c).
Proof. intros Hwf. pose proof (bits_length c Hwf). lia. Qed.

End Reads.

(** X4. [push_back(bit)] on any container between two calls: the logical
    length grows by one, every position that could be read before reads the
    same, the new last position reads the pushed bit, and the full bytes
    already stored are kept, with at most one byte added after them. *)
Theorem push_back_reads (c : t) (v : bit) :
  wf c ->
  wf (push_back c v)
  /\ logical_length (push_back c v) = logical_length c + 1
  /\ (forall p : nat, Z.of_nat p < logical_length c ->
        deref (push_back c v) (position p) = deref c (position p))
  /\ deref (push_back c v) (position (Z.to_nat (logical_length c))) = Some v
  /\ (mData (push_back c v) = mData c
      \/ exists b, mData (push_back c v) = mData c ++ [b]).
Proof.
  intros Hwf. pose proof (wf_push_back c v Hwf) as Hwf'.
  pose proof (bits_push_back c v Hwf) as Hbits.
  pose proof (bits_length c Hwf) as Hlen.
  pose proof (bits_length _ Hwf') as Hlen'.
  rewrite Hbits, length_app in Hlen'. cbn [length] in Hlen'.
  split; [assumption|]. split; [lia|]. split; [|split].
  - intros p Hp. apply deref_of_bits; try assumption; [lia|].
    now rewrite Hbits, take_app_length.
  - rewrite deref_position by (assumption || (rewrite Hbits, length_app; cbn; lia)).
    rewrite Hbits, <- length_bits_nat by assumption.
    now rewrite lookup_app_r, Nat.sub_diag by lia.
  - rewrite push_back_unfold by assumption. cbv zeta.
    destruct (tail_count c =? 7); cbn [mData]; eauto.
Qed.

Lemma push_back_reads_witness :
  deref (push_back (push_back_all empty [true; false]) true) (position 2)
  = Some true.
Proof.
  refine (proj1 (proj2 (proj2 (proj2
    (push_back_reads (push_back_all empty [true; false]) true _))))).
  unfold wf. vm_compute. split; congruence.
Defined.

(** X5. [pop_back] on a container that holds a bit: it returns, the logical
    length shrinks by one and every position below the new length reads the
    same as before. *)
Theorem pop_back_reads (c : t) :
  wf c -> 0 < logical_length c ->
  exists c',
    pop_back c = Some c'
    /\ wf c'
    /\ logical_length c' = logical_length c - 1
    /\ (forall p : nat, Z.of_nat p < logical_length c - 1 ->
          deref c' (position p) = deref c (position p)).
Proof.
  intros Hwf Hpos. pose proof (bits_length c Hwf) as Hlen.
  assert (Hne : bits c <> []).
  { intros Hnil. rewrite Hnil in Hlen. cbn [length] in Hlen. lia. }
  destruct (pop_back_nonempty c Hwf Hne) as (c' & Hpop & Hwf' & Hbits').
  pose proof (bits_length c' Hwf') as Hlen'.
  assert (Hsplit : bits c = bits c' ++ [List.last (bits c) false]).
  { rewrite Hbits'. now apply app_removelast_last. }
  assert (Hl : length (bits c) = S (length (bits c'))).
  { rewrite Hsplit at 1. rewrite length_app. cbn [length]. lia. }
  exists c'. split; [assumption|]. split; [assumption|]. split; [lia|].
  intros p Hp. symmetry. apply deref_of_bits; try assumption; [lia|].
  rewrite Hsplit. now rewrite take_app_length.
Qed.

Lemma pop_back_reads_witness :
  exists c',
    pop_back (push_back_all empty [true; false]) = Some c'
    /\ logical_length c' = 1.
Proof.
  destruct (pop_back_reads (push_back_all empty [true; false]))
    as (c' & H1 & _ & H3 & _).
  - unfold wf. vm_compute. split; congruence.
  - reflexivity.
  - exists c'. split; [exact H1 | exact H3].
Defined.

(** X6. [pop_back] fails its [assert(!mData.empty())] exactly when the
    container holds no bit. *)
Theorem pop_back_fails_iff_empty (c : t) :
  wf c -> (pop_back c = None <-> logical_length c = 0).
Proof.
  intros Hwf. pose proof (bits_length c Hwf) as Hlen. split.
  - intros Hnone. destruct (bits c) as [|x l] eqn:Hbits.
    + cbn [length] in Hlen. lia.
    + destruct (pop_back_nonempty c Hwf) as (c' & Hpop & _); [now rewrite Hbits|].
      congruence.
  - intros Hzero. apply pop_back_empty; [assumption|].
    destruct (bits c); [reflexivity|]. cbn [length] in Hlen. lia.
Qed.

Lemma pop_back_fails_iff_empty_witness :
  pop_back (clear (push_back_all empty [true; true])) = None.
Proof.
  apply (proj2 (pop_back_fails_iff_empty
                  (clear (push_back_all empty [true; true]))
                  (conj (Z.le_refl 0) eq_refl))).
  reflexivity.
Defined.

(** X7. [push_back(bit)] followed by [pop_back]: the call returns and the
    container has the full bytes, the tail count and the logical bits it had
    before the push. *)
Theorem push_back_pop_back (c : t) (v : bit) :
  wf c ->
  exists c',
    pop_back (push_back c v) = Some c'
    /\ mData c' = mData c
    /\ mNumOfBits (mIncompleteByte c') = mNumOfBits (mIncompleteByte c)
    /\ bits c' = bits c.
Proof.
  intros Hwf. pose proof Hwf as Hk. unfold wf, tail_count in Hk.
  assert (Hshape : exists c',
             pop_back (push_back c v) = Some c'
             /\ mData c' = mData c
             /\ mNumOfBits (mIncompleteByte c') = mNumOfBits (mIncompleteByte c)).
  { rewrite push_back_unfold by assumption. cbv zeta. unfold tail_count.
    unfold pop_back, isThereAnIncompleteByte, to_uchar, sNumOfBitsInByte.
    destruct (Z.eqb_spec (mNumOfBits (mIncompleteByte c)) 7) as [H7|H7];
      cbn [mData mIncompleteByte mNumOfBits mByte mBitIndex].
    - cbn [Z.ltb Z.compare]. rewrite last_snoc, removelast_last.
      cbn [mbind option_bind]. eexists. split; [reflexivity|].
      cbn [mData mIncompleteByte mNumOfBits]. split; [reflexivity|].
      rewrite H7. reflexivity.
    - destruct (Z.ltb_spec 0 (mNumOfBits (mIncompleteByte c) + 1)); [|lia].
      eexists. split; [reflexivity|].
      cbn [mData mIncompleteByte mNumOfBits]. split; [reflexivity|].
      rewrite Z.mod_small by lia. lia. }
  destruct Hshape as (c' & Hpop & Hdata & Hcount).
  exists c'. split; [assumption|]. split; [assumption|]. split; [assumption|].
  destruct (pop_back_nonempty (push_back c v)) as (c2 & Hpop2 & _ & Hbits2).
  - now apply wf_push_back.
  - rewrite bits_push_back by assumption. now destruct (bits c).
  - rewrite Hpop in Hpop2. inversion Hpop2; subst c2.
    now rewrite Hbits2, bits_push_back, removelast_last by assumption.
Qed.

Lemma push_back_pop_back_witness :
  exists c',
    pop_back (push_back (push_back_all empty (replicate 7 true)) false) = Some c'
    /\ mData c' = []
    /\ mNumOfBits (mIncompleteByte c') = 7.
Proof.
  destruct (push_back_pop_back (push_back_all empty (replicate 7 true)) false)
    as (c' & H1 & H2 & H3 & _).
  - unfold wf. vm_compute. split; congruence.
  - exists c'. split; [exact H1|]. split; [exact H2 | exact H3].
Defined.

(** ** Cursors *)

(** X8. On cursors whose bit index is in [0,8), [operator==] and [operator<]
    compare the number of bits before the cursor, and [operator!=] is the
    negation of [operator==] on all cursors. *)
Theorem iterator_comparisons (a b : iterator.t) :
  0 <= iterator.mBitIndex a < 8 -> 0 <= iterator.mBitIndex b < 8 ->
  iterator.eqb a b = (cursor_index a =? cursor_index b)
  /\ iterator.ltb a b = (cursor_index a <? cursor_index b)
  /\ iterator.neqb a b = negb (iterator.eqb a b).
Proof.
  destruct a as [i j], b as [i' j'].
  unfold iterator.eqb, iterator.ltb, iterator.neqb, cursor_index.
  cbn [iterator.mByteIndex iterator.mBitIndex]. intros Hj Hj'.
  split; [|split].
  - destruct (Nat.eqb_spec i i'), (Z.eqb_spec j j'),
      (Z.eqb_spec (8 * Z.of_nat i + j) (8 * Z.of_nat i' + j'));
      cbn; try reflexivity; lia.
  - destruct (Nat.ltb_spec i i'), (Nat.eqb_spec i i'), (Z.ltb_spec j j'),
      (Z.ltb_spec (8 * Z.of_nat i + j) (8 * Z.of_nat i' + j'));
      cbn; try reflexivity; lia.
  - now rewrite negb_andb.
Qed.

Lemma iterator_comparisons_witness :
  iterator.ltb (iterator.mk 1 7) (iterator.mk 2 0) = true.
Proof.
  rewrite (proj1 (proj2 (iterator_comparisons (iterator.mk 1 7) (iterator.mk 2 0)
                           ltac:(cbn; lia) ltac:(cbn; lia)))).
  reflexivity.
Defined.



(** X10. For a container between two calls, [end()] is the cursor reached
    from [begin()] by as many increments as the container has bits,
    [begin() == end()] exactly when it has none, and
    [isThereAnIncompleteByte()] exactly when the number of bits is not a
    multiple of eight. *)
Theorem begin_end_span (c : t) :
  wf c ->
  cursor_index (begin_ c) = 0
  /\ cursor_index (end_ c) = logical_length c
  /\ 0 <= iterator.mBitIndex (end_ c) < 8
  /\ (iterator.eqb (begin_ c) (end_ c) = true <-> logical_length c = 0)
  /\ (isThereAnIncompleteByte c = true <-> logical_length c mod 8 <> 0).
Proof.
  unfold wf, logical_length, tail_count, begin_, end_, cursor_index,
    isThereAnIncompleteByte, iterator.eqb.
  cbn [iterator.mByteIndex iterator.mBitIndex]. intros Hk.
  destruct (Z.ltb_spec 0 (mNumOfBits (mIncompleteByte c))) as [Hpos|Hzero].
  - split; [reflexivity|]. split; [lia|]. split; [lia|]. split; split.
    + intros H. apply andb_true_iff in H as [_ H]. apply Z.eqb_eq in H. lia.
    + lia.
    + intros _. lia.
    + reflexivity.
  - split; [reflexivity|]. split; [lia|]. split; [lia|]. split; split.
    + intros H. apply andb_true_iff in H as [H _]. apply Nat.eqb_eq in H. lia.
    + intros H. destruct (mData c); [reflexivity|]. cbn [length] in H. lia.
    + discriminate.
    + intros H. lia.
Qed.

Lemma begin_end_span_witness :
  cursor_index (end_ (push_back_all empty (replicate 11 true))) = 11.
Proof.
  destruct (begin_end_span (push_back_all empty (replicate 11 true)))
    as (_ & H & _).
  - unfold wf. vm_compute. split; congruence.
  - exact H.
Defined.

(** X11. The debug assertion of [get] and [getBitRef] accepts the cursor of
    the [p]-th bit exactly when [p] is below the logical length: the loop from
    [begin()] to [end()] never reads a position the assertion rejects. *)
Theorem position_asserted_iff (c : t) (p : nat) :
  wf c ->
  position_asserted c (iterator.mByteIndex (position p))
                    (iterator.mBitIndex (position p))
  = (Z.of_nat p <? logical_length c).
Proof.
  unfold wf, logical_length, tail_count, position_asserted, position.
  cbn [iterator.mByteIndex iterator.mBitIndex]. intros Hk.
  destruct (Nat.ltb_spec (p / 8) (length (mData c))),
    (Nat.eqb_spec (p / 8) (length (mData c))),
    (Z.ltb_spec (Z.of_nat (p mod 8)) (mNumOfBits (mIncompleteByte c))),
    (Z.ltb_spec (Z.of_nat p)
       (8 * Z.of_nat (length (mData c)) + mNumOfBits (mIncompleteByte c)));
    cbn; try reflexivity; lia.
Qed.

Lemma position_asserted_iff_witness :
  position_asserted (push_back_all empty (replicate 11 true)) 1 3 = false.
Proof.
  refine (position_asserted_iff (push_back_all empty (replicate 11 true)) 11 _).
  unfold wf. vm_compute. split; congruence.
Defined.

(** ** Whole sequences *)

(** X12. [clear] keeps the tail byte but nothing of it shows: after [clear]
    the container has no bit, [begin()] equals [end()], [pop_back] fails its
    assertion, and bits pushed afterwards are read back by iteration exactly
    as pushed. *)
Theorem clear_then_push (c : t) (l : list bit) :
  logical_length (clear c) = 0
  /\ mByte (mIncompleteByte (clear c)) = mByte (mIncompleteByte c)
  /\ begin_ (clear c) = end_ (clear c)
  /\ pop_back (clear c) = None
  /\ to_list (S (length l)) (push_back_all (clear c) l) = Some l.
Proof.
  split; [reflexivity|]. split; [reflexivity|]. split; [reflexivity|].
  split; [reflexivity|].
  pose proof (wf_push_back_all (clear c) l (wf_clear c)) as Hwf.
  pose proof (bits_push_back_all (clear c) l (wf_clear c)) as Hbits.
  rewrite bits_clear, app_nil_l in Hbits.
  rewrite <- Hbits at 1 3. now apply to_list_bits.
Qed.

(** X13. The container implements a sequence of bits under [push_back(bit)],
    [pop_back] and [clear]: a run of calls from the empty container fails an
    assertion exactly when it pops with no bit left, and otherwise iteration
    over the result yields the bits the calls leave, in order. *)
Theorem run_calls_observable (ks : list call) :
  match expect_calls [] ks with
  | Some l =>
      exists c,
        run_calls empty ks = Some c
        /\ to_list (S (length l)) c = Some l
  | None => run_calls empty ks = None
  end.
Proof.
  destruct (expect_calls [] ks) as [l|] eqn:Hexp.
  - destruct (run_calls_refines ks empty l wf_empty Hexp) as (c & Hrun & Hwf & Hbits).
    exists c. split; [assumption|]. subst l. now apply to_list_bits.
  - now apply run_calls_contract; [apply wf_empty|].
Qed.

(** X14. [get(iterator&)] and [getBitRef(iterator&)] on the cursor of a bit
    that was pushed: the bit, or a reference that reads as the bit, comes back
    together with the cursor of the next bit. *)
Theorem get_it_reads_pushed (l : list bit) (p : nat) (v : bit) :
  l !! p = Some v ->
  get_it (push_back_all empty l) (position p) = Some (v, position (S p))
  /\ exists r,
       getBitRef_it (push_back_all empty l) (position p)
       = Some (r, position (S p))
       /\ bit_ref_read (push_back_all empty l) r = Some v.
Proof.
  intros Hv. set (c := push_back_all empty l).
  pose proof (wf_push_back_all empty l wf_empty) as Hwf.
  pose proof (bits_push_back_all empty l wf_empty) as Hbits.
  rewrite bits_empty, app_nil_l in Hbits. fold c in Hwf, Hbits.
  pose proof (lookup_lt_Some _ _ _ Hv) as Hp.
  pose proof (deref_position c p Hwf) as Hd.
  rewrite Hbits, Hv in Hd. specialize (Hd Hp). unfold deref in Hd.
  split.
  - unfold get_it. rewrite Hd. cbn [mbind option_bind].
    now rewrite incr_position.
  - unfold getBitRef_it, getBitRef. unfold get, select_byte in Hd.
    destruct (Nat.ltb_spec (iterator.mByteIndex (position p)) (length (mData c)))
      as [Hin|Hout].
    + destruct (mData c !! iterator.mByteIndex (position p)) as [b|] eqn:Hb;
        [|discriminate]. cbn [mbind option_bind] in *.
      eexists. split; [now rewrite incr_position|].
      unfold bit_ref_read. cbn [bit_ref.mOwner bit_ref.mIndexAtOwner].
      now rewrite Hb.
    + cbn [mbind option_bind] in *.
      eexists. split; [now rewrite incr_position|]. exact Hd.
Qed.

Lemma get_it_reads_pushed_witness :
  get_it (push_back_all empty [true; false; true]) (position 1)
  = Some (false, position 2).
Proof.
  exact (proj1 (get_it_reads_pushed [true; false; true] 1 false eq_refl)).
Defined.

(** ** Assignment through a bit reference *)

Section BitRef.

Lemma concat_byte_bits_insert (data : list byte.t) (i j : nat) (b : byte.t)
    (v : bit) :
  data !! i = Some b -> (j < 8)%nat ->
  concat (byte_bits <$> <[i := byte.set b (Z.of_nat j) v]> data)
  = <[(8 * i + j)%nat := v]> (concat (byte_bits <$> data)).
Proof.
  intros Hb Hj. revert i Hb. induction data as [|x data IH]; intros i Hb.
  - discriminate.
  - destruct i as [|i].
    + cbn in Hb. inversion Hb; subst x.
      cbn [insert list_insert fmap list_fmap concat].
      rewrite byte_bits_set, Nat2Z.id by lia.
      replace (8 * 0 + j)%nat with j by lia.
      now rewrite insert_app_l by (rewrite byte_bits_length; lia).
    + cbn in Hb.
      change (<[S i := byte.set b (Z.of_nat j) v]> (x :: data))
        with (x :: <[i := byte.set b (Z.of_nat j) v]> data).
      cbn [fmap list_fmap concat]. rewrite (IH i Hb).
      rewrite insert_app_r_alt by (rewrite byte_bits_length; lia).
      rewrite byte_bits_length.
      now replace (8 * S i + j - 8)%nat with (8 * i + j)%nat by lia.
Qed.

Lemma bit_ref_assign_bits (c : t) (p : nat) (v : bit) :
  wf c -> (p < length (bits c))%nat ->
  exists r c',
    getBitRef c (iterator.mByteIndex (position p))
              (iterator.mBitIndex (position p)) = Some r
    /\ bit_ref_assign c r v = Some c'
    /\ bit_ref_read c' r = Some v
    /\ wf c'
    /\ bits c' = <[p := v]> (bits c).
Proof.
  intros Hwf Hp. pose proof (bits_length c Hwf) as Hlen.
  unfold wf, logical_length, tail_count in *.
  unfold getBitRef, position. cbn [iterator.mByteIndex iterator.mBitIndex].
  assert (Hdm : p = (8 * (p / 8) + p mod 8)%nat) by (apply Nat.div_mod_eq).
  assert (Hm : (p mod 8 < 8)%nat) by (apply Nat.mod_upper_bound; lia).
  revert Hdm Hm. generalize (p / 8)%nat (p mod 8)%nat. intros i j -> Hj.
  destruct (Nat.ltb_spec i (length (mData c))) as [Hin|Hout].
  - destruct (lookup_lt_is_Some_2 (mData c) i Hin) as [b Hb].
    rewrite Hb. cbn [mbind option_bind].
    exists (bit_ref.mk (bit_ref.in_mData i) (Z.of_nat j)),
      (dynamic_bitset.mk (<[i := byte.set b (Z.of_nat j) v]> (mData c))
         (mIncompleteByte c) (mBitIndex c)).
    split; [reflexivity|].
    unfold bit_ref_assign, bit_ref_read.
    cbn [bit_ref.mOwner bit_ref.mIndexAtOwner mData]. rewrite Hb.
    cbn [mbind option_bind]. split; [reflexivity|].
    rewrite list_lookup_insert_eq by assumption. cbn [mbind option_bind].
    rewrite get_set_same by lia. split; [reflexivity|]. split; [exact Hwf|].
    unfold bits, tail_count. cbn [mData mIncompleteByte].
    rewrite concat_byte_bits_insert by assumption.
    now rewrite insert_app_l by (rewrite concat_byte_bits_length; lia).
  - exists (bit_ref.mk bit_ref.in_mIncompleteByte (Z.of_nat j)),
      (dynamic_bitset.mk (mData c)
         (IncompleteByte.mk
            (byte.set (mByte (mIncompleteByte c)) (Z.of_nat j) v)
            (mNumOfBits (mIncompleteByte c)))
         (mBitIndex c)).
    split; [reflexivity|].
    unfold bit_ref_assign, bit_ref_read.
    cbn [bit_ref.mOwner bit_ref.mIndexAtOwner mIncompleteByte mByte].
    split; [reflexivity|]. rewrite get_set_same by lia.
    split; [reflexivity|]. split; [exact Hwf|].
    unfold bits, tail_count. cbn [mData mIncompleteByte mByte mNumOfBits].
    rewrite byte_bits_set, Nat2Z.id by lia.
    rewrite take_insert_lt by lia.
    rewrite insert_app_r_alt by (rewrite concat_byte_bits_length; lia).
    rewrite concat_byte_bits_length.
    now replace (8 * i + j - 8 * length (mData c))%nat with j by lia.
Qed.

End BitRef.

(** X15. Assigning through the reference [getBitRef] returns for the position
    of a bit of the container: the reference then reads the assigned value,
    that position reads the assigned value, every other position reads as
    before, and the logical length is unchanged. *)
Theorem bit_ref_assign_writes (c : t) (p : nat) (v : bit) :
  wf c -> Z.of_nat p < logical_length c ->
  exists r c',
    getBitRef c (iterator.mByteIndex (position p))
              (iterator.mBitIndex (position p)) = Some r
    /\ bit_ref_assign c r v = Some c'
    /\ bit_ref_read c' r = Some v
    /\ logical_length c' = logical_length c
    /\ (forall q : nat, Z.of_nat q < logical_length c ->
          deref c' (position q)
          = if decide (q = p) then Some v else deref c (position q)).
Proof.
  intros Hwf Hp. pose proof (bits_length c Hwf) as Hlen.
  destruct (bit_ref_assign_bits c p v Hwf ltac:(lia))
    as (r & c' & Hget & Hassign & Hread & Hwf' & Hbits).
  pose proof (bits_length c' Hwf') as Hlen'.
  rewrite Hbits, length_insert in Hlen'.
  exists r, c'. split; [assumption|]. split; [assumption|].
  split; [assumption|]. split; [lia|].
  intros q Hq.
  rewrite !deref_position by (rewrite ?Hbits, ?length_insert; assumption || lia).
  rewrite Hbits. destruct (decide (q = p)) as [->|Hne].
  - now rewrite list_lookup_insert_eq by lia.
  - now rewrite list_lookup_insert_ne by congruence.
Qed.

Lemma bit_ref_assign_writes_witness :
  exists r c',
    getBitRef (push_back_all empty (replicate 10 false)) 1 1 = Some r
    /\ bit_ref_assign (push_back_all empty (replicate 10 false)) r true = Some c'
    /\ bit_ref_read c' r = Some true.
Proof.
  destruct (bit_ref_assign_writes (push_back_all empty (replicate 10 false)) 9 true)
    as (r & c' & H1 & H2 & H3 & _).
  - unfold wf. vm_compute. split; congruence.
  - reflexivity.
  - exists r, c'. split; [exact H1|]. split; [exact H2 | exact H3].
Defined.

(** ** Appending bytes and values *)

Section AppendBytes.

(** [push_back(bit)] only ever adds cells an [unsigned char] can hold, after
    the cells already stored. *)
Lemma push_back_all_data (l : list bit) :
  forall c, wf c ->
  exists added,
    mData (push_back_all c l) = mData c ++ added
    /\ Forall byte.in_range added.
Proof.
  induction l as [|v l IH]; intros c Hwf.
  - exists []. split; [now rewrite app_nil_r | constructor].
  - cbn [push_back_all foldl]. fold (push_back_all (push_back c v) l).
    destruct (IH (push_back c v) (wf_push_back c v Hwf)) as (added & Hdata & Hin).
    rewrite Hdata, push_back_unfold by assumption. cbv zeta.
    destruct (tail_count c =? 7); cbn [mData].
    + eexists. rewrite <- app_assoc. split; [reflexivity|].
      constructor; [apply set_in_range | assumption].
    + eauto.
Qed.

Lemma push_back_all_length (c : t) (l : list bit) :
  wf c ->
  logical_length (push_back_all c l) = logical_length c + Z.of_nat (length l).
Proof.
  intros Hwf.
  rewrite <- !bits_length by (assumption || now apply wf_push_back_all).
  rewrite bits_push_back_all, length_app by assumption. lia.
Qed.

(** On a byte boundary [push_back(byte)] stores the byte as it is. *)
Lemma push_back_byte_aligned (c : t) (b : byte.t) :
  wf c -> tail_count c = 0 -> byte.in_range b ->
  mData (push_back_byte c b) = mData c ++ [b]
  /\ tail_count (push_back_byte c b) = 0.
Proof.
  intros Hwf H0 Hb. rewrite push_back_byte_all.
  pose proof (wf_push_back_all c (byte_bits b) Hwf) as Hwf'.
  pose proof (push_back_all_length c (byte_bits b) Hwf) as Hlen.
  pose proof (bits_push_back_all c (byte_bits b) Hwf) as Hbits.
  destruct (push_back_all_data (byte_bits b) c Hwf) as (added & Hdata & Hin).
  rewrite byte_bits_length in Hlen.
  revert Hwf' Hlen Hbits Hdata.
  generalize (push_back_all c (byte_bits b)). intros c' Hwf' Hlen Hbits Hdata.
  assert (Hshape : length added = 1%nat /\ tail_count c' = 0).
  { clear Hbits. unfold wf, logical_length in *.
    rewrite Hdata, length_app in Hlen. lia. }
  destruct Hshape as [Hone Hzero]. split; [|assumption].
  destruct added as [|x [|y added]]; try discriminate Hone.
  rewrite Hdata. do 2 f_equal.
  assert (Hx : byte_bits x = byte_bits b).
  { apply (app_inv_head (concat (byte_bits <$> mData c))).
    transitivity (bits c'); [|transitivity (bits c ++ byte_bits b)].
    - unfold bits. rewrite Hdata, Hzero, fmap_app, concat_app.
      cbn [fmap list_fmap concat Z.to_nat]. now rewrite take_0, !app_nil_r.
    - exact Hbits.
    - unfold bits. rewrite H0. cbn [Z.to_nat]. now rewrite take_0, app_nil_r. }
  apply byte_bits_inj; [now inversion Hin | assumption | assumption].
Qed.

Lemma wf_push_back_byte (c : t) (b : byte.t) : wf c -> wf (push_back_byte c b).
Proof. intros Hwf. rewrite push_back_byte_all. now apply wf_push_back_all. Qed.

Lemma bits_push_back_byte (c : t) (b : byte.t) :
  wf c -> bits (push_back_byte c b) = bits c ++ byte_bits b.
Proof. intros Hwf. rewrite push_back_byte_all. now apply bits_push_back_all. Qed.

Lemma push_back_value_aligned (data : list byte.t) :
  forall c, wf c -> tail_count c = 0 -> Forall byte.in_range data ->
  mData (push_back_value c data) = mData c ++ data
  /\ tail_count (push_back_value c data) = 0.
Proof.
  induction data as [|b data IH]; intros c Hwf H0 Hdata.
  - cbn. now rewrite app_nil_r.
  - inversion Hdata as [|? ? Hb Hrest]; subst.
    cbn [push_back_value foldl]. fold (push_back_value (push_back_byte c b) data).
    destruct (push_back_byte_aligned c b Hwf H0 Hb) as [Hd Ht].
    destruct (IH (push_back_byte c b)) as [Hd' Ht']; try assumption.
    { rewrite push_back_byte_all. now apply wf_push_back_all. }
    rewrite Hd', Hd, <- app_assoc. now split.
Qed.

End AppendBytes.

(** X16. [push_back(byte)] appends the eight bits of the byte, position 0
    first: the logical length grows by eight, the tail count is unchanged, one
    full byte is added, the positions that could be read before read the same
    and the eight new positions read the bits of the byte in order. *)
Theorem push_back_byte_reads (c : t) (b : byte.t) :
  wf c ->
  logical_length (push_back_byte c b) = logical_length c + 8
  /\ mNumOfBits (mIncompleteByte (push_back_byte c b))
     = mNumOfBits (mIncompleteByte c)
  /\ length (mData (push_back_byte c b)) = S (length (mData c))
  /\ (forall p : nat, Z.of_nat p < logical_length c ->
        deref (push_back_byte c b) (position p) = deref c (position p))
  /\ (forall i : nat, (i < 8)%nat ->
        deref (push_back_byte c b)
              (position (Z.to_nat (logical_length c) + i))
        = Some (byte.get b (Z.of_nat i))).
Proof.
  intros Hwf.
  pose proof (wf_push_back_byte c b Hwf) as Hwf'.
  pose proof (bits_push_back_byte c b Hwf) as Hbits.
  pose proof (bits_length c Hwf) as Hl.
  pose proof (bits_length _ Hwf') as Hl'.
  revert Hwf' Hbits Hl'. generalize (push_back_byte c b).
  intros c' Hwf' Hbits Hl'.
  rewrite Hbits, length_app, byte_bits_length in Hl'.
  assert (Hshape :
    logical_length c' = logical_length c + 8
    /\ mNumOfBits (mIncompleteByte c') = mNumOfBits (mIncompleteByte c)
    /\ length (mData c') = S (length (mData c))).
  { clear Hbits. unfold wf, logical_length, tail_count in *. lia. }
  destruct Hshape as (Hlen & Hcount & Hsize).
  split; [exact Hlen|]. split; [exact Hcount|]. split; [exact Hsize|]. split.
  - intros p Hp. apply deref_of_bits; try assumption; [lia|].
    now rewrite Hbits, take_app_length.
  - intros i Hi.
    rewrite deref_position
      by (assumption || (rewrite Hbits, length_app, byte_bits_length; lia)).
    rewrite Hbits, <- length_bits_nat by assumption.
    rewrite lookup_app_r by lia.
    replace (length (bits c) + i - length (bits c))%nat with i by lia.
    now apply byte_bits_lookup.
Qed.

Lemma push_back_byte_reads_witness :
  deref (push_back_byte (push_back_all empty [true; true; true]) (byte.mk 64))
        (position 4)
  = Some true.
Proof.
  refine (proj2 (proj2 (proj2 (proj2
    (push_back_byte_reads (push_back_all empty [true; true; true])
       (byte.mk 64) _)))) 1%nat _).
  - unfold wf. vm_compute. split; congruence.
  - lia.
Defined.

(** X17. On a byte boundary [push_back] of a value stores the bytes of its
    object representation as they are, after the full bytes already there,
    and leaves the container on a byte boundary. *)
Theorem push_back_value_aligned_stores (c : t) (data : list byte.t) :
  wf c -> mNumOfBits (mIncompleteByte c) = 0 -> Forall byte.in_range data ->
  mData (push_back_value c data) = mData c ++ data
  /\ mNumOfBits (mIncompleteByte (push_back_value c data)) = 0.
Proof. intros Hwf H0 Hdata. now apply push_back_value_aligned. Qed.

Lemma push_back_value_aligned_stores_witness :
  mData (push_back_value empty (uint32_repr_le 0x12345678))
  = [byte.mk 0x78; byte.mk 0x56; byte.mk 0x34; byte.mk 0x12].
Proof.
  refine (proj1 (push_back_value_aligned_stores empty
                   (uint32_repr_le 0x12345678) wf_empty eq_refl _)).
  repeat (apply List.Forall_cons; [unfold byte.in_range; vm_compute; split; congruence|]).
  apply List.Forall_nil.
Defined.

(** X18. [push_back] of a value appends its bytes in order, each with
    position 0 first: the logical length grows by eight per byte, positions
    that could be read before read the same, and bit [i] of byte [k] is read
    at the position of the old length plus [8 k + i]. *)
Theorem push_back_value_reads (c : t) (data : list byte.t) :
  wf c ->
  logical_length (push_back_value c data)
  = logical_length c + 8 * Z.of_nat (length data)
  /\ (forall p : nat, Z.of_nat p < logical_length c ->
        deref (push_back_value c data) (position p) = deref c (position p))
  /\ (forall (k i : nat) (b : byte.t), data !! k = Some b -> (i < 8)%nat ->
        deref (push_back_value c data)
              (position (Z.to_nat (logical_length c) + (8 * k + i)))
        = Some (byte.get b (Z.of_nat i))).
Proof.
  intros Hwf.
  pose proof (wf_push_back_value c data Hwf) as Hwf'.
  pose proof (bits_push_back_value c data Hwf) as Hbits.
  pose proof (bits_length c Hwf) as Hl.
  pose proof (bits_length _ Hwf') as Hl'.
  rewrite Hbits, length_app, concat_byte_bits_length in Hl'.
  split; [lia|]. split.
  - intros p Hp. apply deref_of_bits; try assumption; [lia|].
    now rewrite Hbits, take_app_length.
  - intros k i b Hb Hi. pose proof (lookup_lt_Some _ _ _ Hb) as Hk.
    rewrite deref_position
      by (assumption
          || (rewrite Hbits, length_app, concat_byte_bits_length; lia)).
    rewrite Hbits, <- length_bits_nat by assumption.
    rewrite lookup_app_r by lia.
    replace (length (bits c) + (8 * k + i) - length (bits c))%nat
      with (8 * k + i)%nat by lia.
    rewrite concat_byte_bits_lookup, Hb by assumption. reflexivity.
Qed.

Lemma push_back_value_reads_witness :
  deref (push_back_value (push_back_all empty [true]) [byte.mk 0; byte.mk 128])
        (position 9)
  = Some true.
Proof.
  refine (proj2 (proj2
    (push_back_value_reads (push_back_all empty [true])
       [byte.mk 0; byte.mk 128] _)) 1%nat 0%nat (byte.mk 128) eq_refl _).
  - unfold wf. vm_compute. split; congruence.
  - lia.
Defined.

(** ** Extraction, cursor by cursor *)

Section ExtractionMore.

Lemma bytes_from_length (n : nat) : forall l, length (bytes_from l n) = n.
Proof. induction n as [|n IH]; intros l; cbn [bytes_from length]; auto. Qed.

Lemma bytes_from_lookup (n : nat) :
  forall l k b, bytes_from l n !! k = Some b ->
  b = byte_of_bits (take 8 (drop (8 * k) l)).
Proof.
  induction n as [|n IH]; intros l k b Hb; [discriminate|].
  cbn [bytes_from] in Hb. destruct k as [|k].
  - cbn in Hb. inversion Hb. reflexivity.
  - cbn [lookup list_lookup] in Hb. apply IH in Hb.
    rewrite drop_drop in Hb.
    now replace (8 * S k)%nat with (8 + 8 * k)%nat by lia.
Qed.

Lemma byte_of_bits_get (l : list bit) (i : nat) :
  length l = 8%nat -> (i < 8)%nat ->
  l !! i = Some (byte.get (byte_of_bits l) (Z.of_nat i)).
Proof.
  intros Hl Hi. rewrite <- (byte_bits_of_bits l Hl) at 1.
  now apply byte_bits_lookup.
Qed.



End ExtractionMore.

(** X19. [push_back] of a value followed by [extract<T>] at the position
    before the push gives the value back, and leaves the container as the
    push left it, whenever that position is off a byte boundary or the value
    is at most one byte long. *)
Theorem typed_round_trip (c : t) (data : list byte.t) :
  wf c -> Forall byte.in_range data ->
  0 < mNumOfBits (mIncompleteByte c) \/ (length data <= 1)%nat ->
  extract_at (length data) (length (mData c)) (mNumOfBits (mIncompleteByte c))
             (push_back_value c data)
  = Some (data, push_back_value c data).
Proof.
  intros Hwf Hdata Hcase.
  destruct (Z.ltb_spec 0 (mNumOfBits (mIncompleteByte c))) as [Hpos|Hzero].
  - now apply push_back_extract_unaligned.
  - destruct Hcase as [Hpos|Hshort]; [lia|].
    assert (H0 : mNumOfBits (mIncompleteByte c) = 0)
      by (unfold wf, tail_count in Hwf; lia).
    rewrite H0. destruct data as [|b [|b' data]]; cbn [length] in *; [| |lia].
    + reflexivity.
    + inversion Hdata as [|? ? Hb _]; subst.
      destruct (push_back_value_aligned [b] c Hwf H0 Hdata) as [Hstored _].
      revert Hstored. generalize (push_back_value c [b]). intros c' Hstored.
      assert (Hb' : mData c' !! length (mData c) = Some b).
      { rewrite Hstored. now rewrite lookup_app_r, Nat.sub_diag by lia. }
      unfold extract_at, bind. now rewrite (extract_aligned _ _ _ _ Hb').
Qed.

Lemma typed_round_trip_witness :
  extract_at 2 0 3 (push_back_value (push_back_all empty [true; false; true])
                                    [byte.mk 0x12; byte.mk 0x34])
  = Some ([byte.mk 0x12; byte.mk 0x34],
          push_back_value (push_back_all empty [true; false; true])
                          [byte.mk 0x12; byte.mk 0x34]).
Proof.
  refine (typed_round_trip (push_back_all empty [true; false; true])
            [byte.mk 0x12; byte.mk 0x34] _ _ _).
  - unfold wf. vm_compute. split; congruence.
  - repeat (apply List.Forall_cons;
            [unfold byte.in_range; vm_compute; split; congruence|]).
    apply List.Forall_nil.
  - left. reflexivity.
Defined.

(** X20. [extract<T>(iterator&)] on a cursor off a byte boundary, with
    [sizeof(T)] bytes of bits after it: the call returns [sizeof(T)] bytes,
    bit [t] of byte [k] being the bit [8 k + t] positions after the cursor,
    it moves the cursor forward by [sizeof(T)] bytes and leaves the container
    alone. *)
Theorem extract_cursor_unaligned
    (c : t) (numOfBytes : nat) (byteIndex : byte_index) (bitIndex : bit_index) :
  wf c -> 0 < bitIndex < 8 ->
  8 * Z.of_nat byteIndex + bitIndex + 8 * Z.of_nat numOfBytes
    <= logical_length c ->
  exists returnValue,
    extract numOfBytes (iterator.mk byteIndex bitIndex) c
    = Some ((returnValue, iterator.mk (byteIndex + numOfBytes) bitIndex), c)
    /\ length returnValue = numOfBytes
    /\ (forall (k t : nat) (b : byte.t),
          returnValue !! k = Some b -> (t < 8)%nat ->
          deref c (position (8 * byteIndex + Z.to_nat bitIndex + 8 * k + t))
          = Some (byte.get b (Z.of_nat t))).
Proof.
  intros Hwf Hbit Hrange. pose proof (bits_length c Hwf) as Hlen.
  set (p := (8 * byteIndex + Z.to_nat bitIndex)%nat).
  exists (bytes_from (drop p (bits c)) numOfBytes).
  split; [|split].
  - rewrite (position_of byteIndex bitIndex) by lia. fold p.
    rewrite extract_unaligned by (assumption || (unfold p; lia)).
    do 3 f_equal. rewrite (position_of (byteIndex + numOfBytes) bitIndex) by lia.
    f_equal. unfold p. lia.
  - apply bytes_from_length.
  - intros k t b Hb Ht.
    pose proof (lookup_lt_Some _ _ _ Hb) as Hk. rewrite bytes_from_length in Hk.
    apply bytes_from_lookup in Hb. rewrite drop_drop in Hb.
    rewrite deref_position by (assumption || (unfold p; lia)).
    assert (Hl8 : length (take 8 (drop (p + 8 * k) (bits c))) = 8%nat).
    { rewrite length_take, length_drop. unfold p. lia. }
    rewrite <- (lookup_drop (bits c) (p + 8 * k) t).
    rewrite <- (lookup_take_lt _ 8 t) by assumption.
    rewrite Hb. now apply byte_of_bits_get.
Qed.

Lemma extract_cursor_unaligned_witness :
  exists returnValue,
    extract 1 (iterator.mk 0 3) (push_back_all empty (replicate 12 true))
    = Some ((returnValue, iterator.mk 1 3),
            push_back_all empty (replicate 12 true))
    /\ length returnValue = 1%nat.
Proof.
  destruct (extract_cursor_unaligned
              (push_back_all empty (replicate 12 true)) 1 0 3)
    as (v & H1 & H2 & _).
  - unfold wf. vm_compute. split; congruence.
  - lia.
  - vm_compute. congruence.
  - exists v. split; [exact H1 | exact H2].
Defined.

(** X21. On a byte-aligned cursor at a full byte, extraction of [n] bytes
    reads that one byte [n] times: the result is [n] copies of it and the
    cursor comes back where it was. *)
Theorem extract_aligned_repeats
    (c : t) (numOfBytes : nat) (byteIndex : byte_index) (b : byte.t) :
  mData c !! byteIndex = Some b ->
  extract numOfBytes (iterator.mk byteIndex 0) c
  = Some ((replicate numOfBytes b, iterator.mk byteIndex 0), c).
Proof. intros Hb. now apply extract_aligned. Qed.

Lemma extract_aligned_repeats_witness :
  extract 3 (iterator.mk 1 0)
          (push_back_value empty [byte.mk 1; byte.mk 2; byte.mk 3; byte.mk 4])
  = Some (([byte.mk 2; byte.mk 2; byte.mk 2], iterator.mk 1 0),
          push_back_value empty [byte.mk 1; byte.mk 2; byte.mk 3; byte.mk 4]).
Proof.
  refine (extract_aligned_repeats
            (push_back_value empty [byte.mk 1; byte.mk 2; byte.mk 3; byte.mk 4])
            3 1 (byte.mk 2) _).
  vm_compute. reflexivity.
Defined.

(** X22. The fast path of [getByte] indexes the vector of full bytes and
    nothing else: on a byte-aligned cursor the call is undefined exactly when
    the byte index is not below the number of full bytes.  This includes the
    cursor at the start of a partial tail, a position that the assertion of
    [get] accepts. *)
Theorem getByte_aligned_bounds (c : t) (byteIndex : byte_index) :
  (getByte (iterator.mk byteIndex 0) c = None
   <-> (length (mData c) <= byteIndex)%nat)
  /\ (0 < mNumOfBits (mIncompleteByte c) ->
      position_asserted c (length (mData c)) 0 = true
      /\ getByte (iterator.mk (length (mData c)) 0) c = None).
Proof.
  assert (Hfast : forall i,
            getByte (iterator.mk i 0) c = None <-> (length (mData c) <= i)%nat).
  { intros i. unfold getByte, bind, source, defined, ret.
    cbn [iterator.mBitIndex iterator.mByteIndex Z.eqb]. split.
    - intros Hnone. destruct (mData c !! i) as [b|] eqn:Hb; [discriminate|].
      now apply lookup_ge_None_1 in Hb.
    - intros Hge. now rewrite lookup_ge_None_2. }
  split; [apply Hfast|]. intros Hpos. split; [|now apply Hfast].
  unfold position_asserted. rewrite Nat.eqb_refl.
  destruct (Z.ltb_spec 0 (mNumOfBits (mIncompleteByte c))); [|lia].
  apply orb_true_r.
Qed.

Lemma getByte_aligned_bounds_witness :
  position_asserted (push_back_all empty (replicate 11 true)) 1 0 = true
  /\ getByte (iterator.mk 1 0) (push_back_all empty (replicate 11 true)) = None.
Proof.
  refine (proj2 (getByte_aligned_bounds
                   (push_back_all empty (replicate 11 true)) 0) _).
  reflexivity.
Defined.



(** X24. [extract(char*, size_t, byte_index, bit_index)] into a buffer of at
    least [n] bytes, from a position with [n] bytes of bits after it: the
    first [n] bytes of the buffer become the bytes [extract<T>] returns for a
    type of that size from the same position, the rest of the buffer is as it
    was, and the container is left alone. *)
Theorem extract_bytes_at_fills_prefix
    (c : t) (destination : list byte.t) (amountOfBytesToExtract : nat)
    (byteIndex : byte_index) (bitIndex : bit_index) :
  wf c -> 0 <= bitIndex < 8 ->
  8 * Z.of_nat byteIndex + bitIndex + 8 * Z.of_nat amountOfBytesToExtract
    <= logical_length c ->
  (amountOfBytesToExtract <= length destination)%nat ->
  exists bytes,
    extract_at amountOfBytesToExtract byteIndex bitIndex c = Some (bytes, c)
    /\ length bytes = amountOfBytesToExtract
    /\ extract_bytes_at destination amountOfBytesToExtract byteIndex bitIndex c
       = Some (bytes ++ drop amountOfBytesToExtract destination, c).
Proof.
  intros Hwf Hbit Hrange Hdest. pose proof (bits_length c Hwf) as Hlen.
  unfold extract_at, extract_bytes_at, extract_bytes, bind.
  destruct (Z.eq_dec bitIndex 0) as [->|Hne].
  - destruct amountOfBytesToExtract as [|n].
    + exists []. cbn. now rewrite drop_0.
    + unfold wf, logical_length in *.
      destruct (lookup_lt_is_Some_2 (mData c) byteIndex) as [b Hb]; [lia|].
      exists (replicate (S n) b).
      rewrite (extract_aligned _ _ _ _ Hb).
      rewrite (extract_bytes_aligned c byteIndex b (S n) Hb 0 destination)
        by lia.
      split; [reflexivity|]. split; [apply length_replicate|].
      now rewrite take_0.
  - rewrite (position_of byteIndex bitIndex) by assumption.
    exists (bytes_from (drop (8 * byteIndex + Z.to_nat bitIndex) (bits c))
                       amountOfBytesToExtract).
    rewrite extract_unaligned by (assumption || lia).
    rewrite (extract_bytes_unaligned c amountOfBytesToExtract Hwf _ 0 destination)
      by lia.
    split; [reflexivity|]. split; [apply bytes_from_length|].
    now rewrite take_0.
Qed.

Lemma extract_bytes_at_fills_prefix_witness :
  exists bytes,
    extract_at 1 0 3 (push_back_all empty (replicate 12 true)) = Some (bytes,
      push_back_all empty (replicate 12 true))
    /\ extract_bytes_at [byte.mk 1; byte.mk 2] 1 0 3
         (push_back_all empty (replicate 12 true))
       = Some (bytes ++ [byte.mk 2], push_back_all empty (replicate 12 true)).
Proof.
  destruct (extract_bytes_at_fills_prefix
              (push_back_all empty (replicate 12 true))
              [byte.mk 1; byte.mk 2] 1 0 3)
    as (bytes & H1 & _ & H3).
  - unfold wf. vm_compute. split; congruence.
  - lia.
  - vm_compute. congruence.
  - cbn. lia.
  - exists bytes. split; [exact H1 | exact H3].
Defined.
